(** * The document-indexing core of the RAG service

    A shallow embedding of [src/rag/src/chroma.py] (class [ChromaVectorDB])
    and of the two request handlers of [src/rag/src/app.py], followed by the
    properties of chunk identification, de-duplicating ingestion, batching,
    connection handling and metadata-filtered search.

    Python objects are modelled by value.  The list handed to
    [calculate_chunk_ids] comes from the text splitter, which builds one
    fresh [Document] per chunk, each with its own metadata dictionary, so
    two positions of the list never alias the same object and the in-place
    update [chunk.metadata[key] = value] is an update of that position
    only.  The section on shared objects gives [calculate_chunk_ids] a
    second time without that assumption, on dictionaries held by address,
    and relates the two. *)

From Stdlib Require Import Ascii.
From stdpp Require Import functions gmap strings list pretty.


(** ** Values, dictionaries and documents *)

(** The metadata values that occur in the program: [None], booleans,
    integers and strings. *)
Inductive Value : Type :=
  | VNone
  | VBool (b : bool)
  | VInt (n : Z)
  | VStr (s : string).

#[global] Instance Value_eq_dec : EqDecision Value.
Proof. solve_decision. Defined.

(** [str(v)], which is also what an f-string field [{v}] expands to. *)
Definition py_str (v : Value) : string :=
  match v with
  | VNone => "None"
  | VBool true => "True"
  | VBool false => "False"
  | VInt n => pretty n
  | VStr s => s
  end.

(** A [dict] literal, in insertion order. *)
Definition Dict : Type := list (string * Value).

(** [langchain.schema.document.Document]. *)
Record Document : Type := mkDocument {
  page_content : string;
  metadata : gmap string Value
}.

#[global] Instance Document_eq_dec : EqDecision Document.
Proof. solve_decision. Defined.

(** [d.get(key)]: the value, or [None] when the key is missing. *)
Definition dict_get (d : gmap string Value) (key : string) : Value :=
  default VNone (d !! key).

(** [chunk.metadata[key] = value]. *)
Definition set_item (key : string) (value : Value) (chunk : Document) : Document :=
  {| page_content := page_content chunk;
     metadata := <[key := value]> (metadata chunk) |}.

(** ** [ChromaVectorDB.calculate_chunk_ids] *)

(** [f"{source}:{page}"] for the chunk's [source] and [page]. *)
Definition current_page_id (chunk : Document) : string :=
  py_str (dict_get (metadata chunk) "source") +:+ ":" +:+
  py_str (dict_get (metadata chunk) "page").

(** [for key, value in item.items(): chunk.metadata[key] = value]. *)
Definition apply_item (item : Dict) (chunk : Document) : Document :=
  foldl (λ c kv, set_item kv.1 kv.2 c) chunk item.

(** [if metadata: for item in metadata: ...]. *)
Definition apply_metadata (md : list Dict) (chunk : Document) : Document :=
  match md with
  | [] => chunk
  | _ => foldl (λ c item, apply_item item c) chunk md
  end.

(** The body of the [for chunk in chunks] loop, with the two loop variables
    [last_page_id] and [current_chunk_index] passed along. *)
Fixpoint calculate_chunk_ids_from (last_page_id : option string)
    (current_chunk_index : nat) (chunks : list Document) (md : list Dict)
    : list Document :=
  match chunks with
  | [] => []
  | chunk :: rest =>
      let page_id := current_page_id chunk in
      let index :=
        if decide (Some page_id = last_page_id)
        then S current_chunk_index else 0 in
      let chunk_id := page_id +:+ ":" +:+ pretty index in
      let chunk := set_item "id" (VStr chunk_id) chunk in
      let chunk := apply_metadata md chunk in
      chunk :: calculate_chunk_ids_from (Some page_id) index rest md
  end.

Definition calculate_chunk_ids (chunks : list Document) (md : list Dict)
    : list Document :=
  calculate_chunk_ids_from None 0 chunks md.

(** [chunk.metadata["id"]], a [KeyError] when the key is missing. *)
Definition chunk_id (chunk : Document) : option Value := metadata chunk !! "id".

(** A chunk with the given [source] and [page] and nothing else. *)
Definition page_chunk (source : string) (page : Z) : Document :=
  {| page_content := "";
     metadata := {["source" := VStr source; "page" := VInt page]} |}.

Example calculate_chunk_ids_three :
  chunk_id <$> calculate_chunk_ids
    [page_chunk "data/monopoly.pdf" 6; page_chunk "data/monopoly.pdf" 6;
     page_chunk "data/monopoly.pdf" 6] []
  = [Some (VStr "data/monopoly.pdf:6:0"); Some (VStr "data/monopoly.pdf:6:1");
     Some (VStr "data/monopoly.pdf:6:2")].
Proof. vm_compute. reflexivity. Qed.

(** ** Exceptions *)

Inductive exn : Type :=
  | KeyError (key : string)
  | ValueError (msg : string)
  | LibraryError (msg : string).

(** A computation that returns or raises. *)
Definition Result (A : Type) : Type := exn + A.

#[global] Instance Result_ret : MRet Result := λ A x, inr x.
#[global] Instance Result_bind : MBind Result := λ A B f m,
  match m with
  | inl e => inl e
  | inr x => f x
  end.

(** ** The vector store behind [self.vector_store] *)

(** The three methods of the store that the adapter calls, with their
    arguments. *)
Inductive StoreCall : Type :=
  | CallGet
  | CallAddDocuments (documents : list Document) (ids : list Value)
  | CallSimilaritySearch (query : string) (k : Z) (filter : option Dict).

(** An entry matches a filter when its metadata has every key/value pair of
    the filter; [filter=None] restricts nothing. *)
Definition matches_filter (filter : option Dict) (d : Document) : Prop :=
  match filter with
  | None => True
  | Some f => Forall (λ kv, metadata d !! kv.1 = Some kv.2) f
  end.

#[global] Instance matches_filter_dec filter d : Decision (matches_filter filter d).
Proof. destruct filter; simpl; apply _. Defined.

(** The store is an external collaborator ([langchain_chroma.Chroma]); the
    adapter is verified against its interface.  [vs_get] is
    [get(include=[])["ids"]], [vs_add_documents] is
    [add_documents(documents, ids=ids)] and [vs_similarity_search] is
    [similarity_search(query, k=k, filter=filter)]; [None] stands for a call
    that raised, which leaves the collection as it was.  [vs_entry] is the
    entry stored under an identifier.  The laws are the contract of §6 of
    the specification: a write adds exactly the identifiers it is given and
    touches no other entry, and a search returns stored entries that match
    the filter. *)
Class VectorStore (S : Type) : Type := {
  vs_get : S → list string;
  vs_entry : S → string → option Document;
  vs_add_documents : S → list Document → list Value → option S;
  vs_similarity_search : S → string → Z → option Dict → option (list Document);
  vs_get_entry s x :
    x ∈ vs_get s ↔ is_Some (vs_entry s x);
  vs_add_get s documents ids s' x :
    vs_add_documents s documents ids = Some s' →
    x ∈ vs_get s' ↔ x ∈ vs_get s ∨ VStr x ∈ ids;
  vs_add_str s documents ids s' v :
    vs_add_documents s documents ids = Some s' →
    v ∈ ids → ∃ x, v = VStr x;
  vs_add_frame s documents ids s' x :
    vs_add_documents s documents ids = Some s' →
    VStr x ∉ ids → vs_entry s' x = vs_entry s x;
  vs_add_entry s documents ids s' x d :
    vs_add_documents s documents ids = Some s' →
    vs_entry s' x = Some d →
    vs_entry s x = Some d ∨ (VStr x, d) ∈ zip ids documents;
  vs_search_sound s query k filter results d :
    vs_similarity_search s query k filter = Some results →
    d ∈ results → matches_filter filter d ∧ ∃ x, vs_entry s x = Some d
}.

(** ** The adapter's methods as store-passing computations *)

(** The outcome of running a method: the collection afterwards, the calls
    made on the store, in order, and the value returned or exception
    raised. *)
Record Run (S A : Type) : Type := mkRun {
  run_store : S;
  run_calls : list StoreCall;
  run_result : Result A
}.
Arguments mkRun {S A} _ _ _.
Arguments run_store {S A} _.
Arguments run_calls {S A} _.
Arguments run_result {S A} _.

Definition Adapter (S A : Type) : Type := S → Run S A.

Definition ret_a {S A} (x : A) : Adapter S A := λ s, mkRun s [] (inr x).

Definition lift_a {S A} (r : Result A) : Adapter S A := λ s, mkRun s [] r.

Definition bind_a {S A B} (m : Adapter S A) (f : A → Adapter S B) : Adapter S B :=
  λ s,
    let r := m s in
    match run_result r with
    | inl e => mkRun (run_store r) (run_calls r) (inl e)
    | inr x =>
        let r' := f x (run_store r) in
        mkRun (run_store r') (run_calls r ++ run_calls r')%list (run_result r')
    end.

Notation "x ←ₐ m ; k" := (bind_a m (λ x, k))
  (at level 20, m at level 100, k at level 200, only parsing).
Notation "m ;;ₐ k" := (bind_a m (λ _, k))
  (at level 100, k at level 200, right associativity, only parsing).

(** ** [ChromaVectorDB.batch] *)

(** The values of [range(0, stop, step)] for a positive [step]. *)
Definition py_range (stop step : nat) : list nat :=
  (λ q, q * step) <$> seq 0 ((stop + step - 1) `div` step).

(** [iterable[i : i + n]]. *)
Definition slice {A} (l : list A) (i n : nat) : list A := take n (drop i l).

(** The batches the generator yields.  [range] raises for a zero step and is
    empty for a negative one. *)
Definition batch {A} (iterable : list A) (n : Z) : Result (list (list A)) :=
  if decide (n = 0)%Z then inl (ValueError "range() arg 3 must not be zero")
  else if decide (n < 0)%Z then inr []
  else inr ((λ i, slice iterable i (Z.to_nat n))
              <$> py_range (length iterable) (Z.to_nat n)).

Example batch_ten_by_four :
  batch [0; 1; 2; 3; 4; 5; 6; 7; 8; 9] 4 = inr [[0; 1; 2; 3]; [4; 5; 6; 7]; [8; 9]].
Proof. reflexivity. Qed.

(** ** [ChromaVectorDB.add_documents] and [ChromaVectorDB.search] *)

(** [v in existing_ids] for a set of stored identifiers, which are strings:
    no other value is equal to one. *)
Definition id_in (v : Value) (existing_ids : gset string) : Prop :=
  match v with
  | VStr x => x ∈ existing_ids
  | _ => False
  end.

#[global] Instance id_in_dec v existing_ids : Decision (id_in v existing_ids).
Proof. destruct v; simpl; apply _. Defined.

(** The loop that collects [new_chunks]. *)
Fixpoint select_new (existing_ids : gset string) (chunks_with_ids : list Document)
    : Result (list Document) :=
  match chunks_with_ids with
  | [] => inr []
  | chunk :: rest =>
      match chunk_id chunk with
      | None => inl (KeyError "id")
      | Some v =>
          new_chunks ← select_new existing_ids rest;
          if decide (id_in v existing_ids) then mret new_chunks
          else mret (chunk :: new_chunks)
      end
  end.

(** [[chunk.metadata["id"] for chunk in batch_chunks]]. *)
Fixpoint chunk_ids (batch_chunks : list Document) : Result (list Value) :=
  match batch_chunks with
  | [] => inr []
  | chunk :: rest =>
      match chunk_id chunk with
      | None => inl (KeyError "id")
      | Some v => ids ← chunk_ids rest; mret (v :: ids)
      end
  end.

(** The dictionary returned when there is nothing to add. *)
Definition no_new_documents : Dict :=
  [("success", VBool true); ("message", VStr "No new valid documents to add")].

Section adapter.
Context {S : Type} `{!VectorStore S}.

(** [self.calculate_chunk_ids(chunks, metadata)]: a static method, which
    is given neither the instance nor its store. *)
Definition self_calculate_chunk_ids (chunks : list Document) (md : list Dict)
    : Adapter S (list Document) :=
  ret_a (calculate_chunk_ids chunks md).

Definition store_get : Adapter S (list string) :=
  λ s, mkRun s [CallGet] (inr (vs_get s)).

Definition store_add_documents (documents : list Document) (ids : list Value)
    : Adapter S unit :=
  λ s,
    match vs_add_documents s documents ids with
    | Some s' => mkRun s' [CallAddDocuments documents ids] (inr ())
    | None =>
        mkRun s [CallAddDocuments documents ids]
          (inl (LibraryError "add_documents"))
    end.

Definition store_similarity_search (query : string) (k : Z)
    (filter : option Dict) : Adapter S (list Document) :=
  λ s,
    mkRun s [CallSimilaritySearch query k filter]
      (match vs_similarity_search s query k filter with
       | Some results => inr results
       | None => inl (LibraryError "similarity_search")
       end).

(** [for batch_chunks in self.batch(new_chunks, 100): ...]. *)
Fixpoint write_batches (batches : list (list Document)) : Adapter S unit :=
  match batches with
  | [] => ret_a ()
  | batch_chunks :: rest =>
      batch_ids ←ₐ lift_a (chunk_ids batch_chunks);
      store_add_documents batch_chunks batch_ids ;;ₐ
      write_batches rest
  end.

(** The method returns the dictionary [no_new_documents] when every chunk
    is already stored, and [None] after writing. *)
Definition add_documents (documents : list Document) (md : list Dict)
    : Adapter S (option Dict) :=
  chunks_with_ids ←ₐ self_calculate_chunk_ids documents md;
  existing_items ←ₐ store_get;
  let existing_ids : gset string := list_to_set existing_items in
  new_chunks ←ₐ lift_a (select_new existing_ids chunks_with_ids);
  match new_chunks with
  | [] => ret_a (Some no_new_documents)
  | _ =>
      batches ←ₐ lift_a (batch new_chunks 100);
      write_batches batches ;;ₐ
      ret_a None
  end.

Definition search (query : string) (k : Z) (filter : option Dict)
    : Adapter S (list Document) :=
  results ←ₐ store_similarity_search query k filter;
  ret_a results.
End adapter.

(** ** [add_documents] when the [get] call itself may raise *)

(** [self.vector_store.get(include=[])] is a call on the store like the
    other two, and like them it may raise.  [answers] says whether the
    store answers it; when it does not, the call is made and its exception
    leaves [add_documents]. *)
Definition store_get_when {S : Type} `{!VectorStore S} (answers : bool)
    : Adapter S (list string) :=
  λ s,
    if answers then store_get s
    else mkRun s [CallGet] (inl (LibraryError "get")).

(** [add_documents] with that [get]: the same method, statement by
    statement. *)
Definition add_documents_when {S : Type} `{!VectorStore S} (answers : bool)
    (documents : list Document) (md : list Dict) : Adapter S (option Dict) :=
  chunks_with_ids ←ₐ self_calculate_chunk_ids documents md;
  existing_items ←ₐ store_get_when answers;
  let existing_ids : gset string := list_to_set existing_items in
  new_chunks ←ₐ lift_a (select_new existing_ids chunks_with_ids);
  match new_chunks with
  | [] => ret_a (Some no_new_documents)
  | _ =>
      batches ←ₐ lift_a (batch new_chunks 100);
      write_batches batches ;;ₐ
      ret_a None
  end.

(** ** [ChromaVectorDB.connect] *)

(** [OllamaEmbeddings(model=..., base_url=...)]. *)
Record Embeddings : Type := mkEmbeddings {
  model : string;
  base_url : option string
}.

Definition CHROMA_PATH : string := "chroma".

(** The arguments of one [Chroma(...)] construction. *)
Record Chroma : Type := mkChroma {
  persist_directory : string;
  embedding_function : Embeddings;
  collection_name : string
}.

(** Every [Chroma(...)] call builds a new store object.  The process keeps
    them in construction order and an object is known by its position. *)
Definition Handle : Type := nat.
Definition Process : Type := list Chroma.

(** An instance of [ChromaVectorDB].  Reading [self.vector_store] finds the
    instance attribute once [connect] has set it, and the class attribute
    [vector_store = None] before. *)
Record ChromaVectorDB : Type := mkChromaVectorDB {
  vector_store : option Handle
}.

(** [connect] returns the handle; the instance and the process are passed
    along. *)
Definition connect (self : ChromaVectorDB) (index_name : string)
    (embedding : Embeddings) (p : Process) : Handle * ChromaVectorDB * Process :=
  match vector_store self with
  | Some h => (h, self, p)
  | None =>
      let h := length p in
      (h, {| vector_store := Some h |},
       (p ++ [mkChroma CHROMA_PATH embedding index_name])%list)
  end.

(** [ChromaVectorDB(index_name, embedding)]. *)
Definition new_ChromaVectorDB (index_name : string) (embedding : Embeddings)
    (p : Process) : ChromaVectorDB * Process :=
  let '(_, self, p') := connect {| vector_store := None |} index_name embedding p in
  (self, p').

(** ** [ChromaVectorDB.split_documents] *)

(** The text-splitter library is external: its constructor and its
    [split_documents] method are parameters, each returning or raising. *)
Record TextSplitterLib : Type := mkTextSplitterLib {
  TextSplitter : Type;
  RecursiveCharacterTextSplitter : Z → Z → Result TextSplitter;
  text_splitter_split_documents :
    TextSplitter → list Document → Result (list Document)
}.

Definition split_documents (lib : TextSplitterLib) (documents : list Document)
    (chunk_size chunk_overlap : Z) : Result (list Document) :=
  text_splitter ← RecursiveCharacterTextSplitter lib chunk_size chunk_overlap;
  text_splitter_split_documents lib text_splitter documents.

(** ** The request handlers of [app.py] *)

(** The [metadata] argument of the [add_documents] call in [/api/embed]. *)
Definition embed_metadata : list Dict :=
  [[("user:editor", VBool false);
    ("user:owner", VBool true);
    ("user:admin", VBool true);
    ("user:superadmin", VBool true);
    ("user:root", VBool true);
    ("user:system", VBool true);
    ("user:anonymous", VBool true)]].

Definition editor_filter : Dict := [("user:editor", VBool true)].
Definition owner_filter : Dict := [("user:owner", VBool true)].

Section handlers.
Context {S : Type} `{!VectorStore S}.

(** [background_upload], on the collection that [request.index_name] names
    and from the documents that [load_documents("data")] returned.  The
    function ends with the [add_documents] call, without a [return]: what
    that call returns is dropped and the function returns [None], written
    [()]. *)
Definition background_upload (lib : TextSplitterLib) (documents : list Document)
    (chunk_size chunk_overlap : Z) : Adapter S unit :=
  chunks ←ₐ lift_a (split_documents lib documents chunk_size chunk_overlap);
  add_documents chunks embed_metadata ;;ₐ
  ret_a ().

(** The collection after a series of [/api/embed] requests, one background
    upload each, given as the loaded documents and the two split
    parameters. *)
Fixpoint embed_runs (lib : TextSplitterLib)
    (requests : list (list Document * Z * Z)) (s : S) : S :=
  match requests with
  | [] => s
  | (documents, chunk_size, chunk_overlap) :: rest =>
      embed_runs lib rest
        (run_store (background_upload lib documents chunk_size chunk_overlap s))
  end.

(** The two searches of [/api/search]: [results_editor], [results_owner]. *)
Definition api_search (query : string) (k : Z)
    : Adapter S (list Document * list Document) :=
  results_editor ←ₐ search query k (Some editor_filter);
  results_owner ←ₐ search query k (Some owner_filter);
  ret_a (results_editor, results_owner).
End handlers.

(** [background_upload] on a store whose [get] may raise, see
    [add_documents_when]. *)
Definition background_upload_when {S : Type} `{!VectorStore S} (answers : bool)
    (lib : TextSplitterLib) (documents : list Document)
    (chunk_size chunk_overlap : Z) : Adapter S unit :=
  chunks ←ₐ lift_a (split_documents lib documents chunk_size chunk_overlap);
  add_documents_when answers chunks embed_metadata ;;ₐ
  ret_a ().

(** ** Auxiliary notions for the properties *)

(** The keys an overlay assigns. *)
Definition overlay_keys (md : list Dict) : list string :=
  concat ((λ item : Dict, item.*1) <$> md).

(** The loop of [calculate_chunk_ids_from] on the page identifiers alone:
    each one paired with the index the loop gives it. *)
Fixpoint index_pairs (last_page_id : option string) (current_chunk_index : nat)
    (page_ids : list string) : list (string * nat) :=
  match page_ids with
  | [] => []
  | page_id :: rest =>
      let index :=
        if decide (Some page_id = last_page_id)
        then S current_chunk_index else 0 in
      (page_id, index) :: index_pairs (Some page_id) index rest
  end.

(** The identifier built from a page identifier and an index. *)
Definition make_id (pi : string * nat) : string := pi.1 +:+ ":" +:+ pretty pi.2.

(** The index as the specification words it: zero at the first chunk and
    whenever the page identifier differs from the one just before, and one
    more than the previous index when the two are equal. *)
Fixpoint spec_index (page_ids : list string) (i : nat) : nat :=
  match i with
  | 0 => 0
  | S j =>
      if decide (page_ids !! S j = page_ids !! j)
      then S (spec_index page_ids j) else 0
  end.

(** [skip_run p l] drops the leading elements of [l] equal to [p]. *)
Fixpoint skip_run (p : string) (l : list string) : list string :=
  match l with
  | [] => []
  | q :: rest => if decide (q = p) then skip_run p rest else l
  end.

(** The chunks of one [source:page] are next to each other: between two
    positions with the same page identifier, every position has it. *)
Definition pages_contiguous (page_ids : list string) : Prop :=
  ∀ i j k p, i < j < k →
    page_ids !! i = Some p → page_ids !! k = Some p → page_ids !! j = Some p.

(** The same as a check that runs: a page identifier does not occur again
    after the run of its occurrences has ended. *)
Fixpoint no_reentry (page_ids : list string) : Prop :=
  match page_ids with
  | [] => True
  | p :: rest => (p ∉ skip_run p rest) ∧ no_reentry rest
  end.

#[global] Instance no_reentry_dec page_ids : Decision (no_reentry page_ids).
Proof. induction page_ids; simpl; apply _. Defined.

(** A chunk whose identifier is among the stored ones. *)
Definition already_stored (existing_ids : gset string) (chunk : Document) : Prop :=
  match chunk_id chunk with
  | Some v => id_in v existing_ids
  | None => False
  end.

#[global] Instance already_stored_dec existing_ids chunk :
  Decision (already_stored existing_ids chunk).
Proof. unfold already_stored. destruct (chunk_id chunk); apply _. Defined.

(** The chunks [add_documents] keeps for writing: those whose identifier is
    not among the stored ones. *)
Definition new_chunks_for (existing_items : list string)
    (chunks_with_ids : list Document) : list Document :=
  filter (λ c, ¬ already_stored (list_to_set existing_items) c) chunks_with_ids.

(** A run that returned rather than raised. *)
Definition succeeded {S A} (r : Run S A) : Prop :=
  match run_result r with
  | inr _ => True
  | inl _ => False
  end.

(** A store call that writes the batch [b] under the identifiers of its
    chunks. *)
Definition writes_batch (call : StoreCall) (b : list Document) : Prop :=
  ∃ ids, chunk_ids b = inr ids ∧ call = CallAddDocuments b ids.

(** A string without a colon. *)
Fixpoint colon_free (s : string) : Prop :=
  match s with
  | EmptyString => True
  | String a s' => a ≠ ":"%char ∧ colon_free s'
  end.

(** The sequence [A,pg1], [A,pg1], [A,pg2], [A,pg1] of §8 of the
    specification. *)
Definition reentry_chunks : list Document :=
  [page_chunk "A" 1; page_chunk "A" 1; page_chunk "A" 2; page_chunk "A" 1].

(** A text splitter to run the model with.  Its constructor rejects an
    overlap larger than the size, the check made by the constructor of
    [langchain_text_splitters.TextSplitter], and accepts every other
    configuration; it returns each document as one chunk, as the splitter
    does for documents shorter than the chunk size. *)
Definition whole_document_splitter : TextSplitterLib :=
  {| TextSplitter := Z * Z;
     RecursiveCharacterTextSplitter chunk_size chunk_overlap :=
       if decide (chunk_size < chunk_overlap)%Z
       then inl (ValueError "Got a larger chunk overlap than chunk size")
       else inr (chunk_size, chunk_overlap);
     text_splitter_split_documents _ documents := inr documents |}.

(** A one-page document shorter than any chunk size used here. *)
Definition short_document : Document :=
  {| page_content := "Monopoly";
     metadata := {["source" := VStr "data/monopoly.pdf"; "page" := VInt 0]} |}.

(** ** The response of [/api/search] *)

(** What the handler answers: the dictionary with the two result lists, or
    the [HTTPException] its [except Exception] clause raises. *)
Inductive SearchResponse : Type :=
  | SearchOK (results_editor results_owner : list Document)
  | HTTPException (status_code : Z) (detail : string).

(** The [try] block of the handler from the first search on, that is, once
    the embedding and the [ChromaVectorDB] have been constructed. *)
Definition search_endpoint {S : Type} `{!VectorStore S} (query : string) (k : Z)
    (s : S) : SearchResponse :=
  match run_result (api_search query k s) with
  | inr (results_editor, results_owner) => SearchOK results_editor results_owner
  | inl _ => HTTPException 500 "Internal server error"
  end.

(** ** [Constants.isDevelopment] and [main.py] *)

(** The environment: variable names to their values. *)
Abbreviation Environ := (gmap string string).

(** [os.getenv(key)]. *)
Definition os_getenv (environ : Environ) (key : string) : option string :=
  environ !! key.

(** [os.getenv(key, default)]. *)
Definition os_getenv_default (environ : Environ) (key : string) (default : Value)
    : Value :=
  match environ !! key with
  | Some v => VStr v
  | None => default
  end.

(** [str.lower()] on the letters A to Z; every other character is left as
    it is.  No character outside A to Z lowercases to a letter of
    ["development"], so the comparison in [isDevelopment] is not affected by
    how the others are treated. *)
Definition lower_char (a : ascii) : ascii :=
  let n := N_of_ascii a in
  if decide (65 ≤ n ≤ 90)%N then ascii_of_N (n + 32) else a.

Fixpoint py_lower (s : string) : string :=
  match s with
  | EmptyString => EmptyString
  | String a s' => String (lower_char a) (py_lower s')
  end.

Definition isDevelopment (environ : Environ) : bool :=
  match os_getenv environ "env" with
  | None => false
  | Some env =>
      if decide (py_lower env = "development") then true else false
  end.

(** [dotenv.load_dotenv(".env", override=True)]: every variable the file
    gives a value replaces the one of the process. *)
Definition load_dotenv_override (dotenv environ : Environ) : Environ :=
  dotenv ∪ environ.

(** [int(x)] for the values [PORT] can hold.  The reading of a string as an
    integer is Python's and is a parameter: [None] is its [ValueError]. *)
Inductive IntResult : Type :=
  | IntOK (n : Z)
  | IntValueError
  | IntTypeError.

Definition py_int (int_of_str : string → option Z) (x : Value) : IntResult :=
  match x with
  | VInt n => IntOK n
  | VBool b => IntOK (if b then 1 else 0)
  | VStr s =>
      match int_of_str s with
      | Some n => IntOK n
      | None => IntValueError
      end
  | VNone => IntTypeError
  end.

(** How the [__main__] block ends: in [uvicorn.run(...)] or in an exception
    that leaves the script. *)
Inductive MainOutcome : Type :=
  | UvicornRun (app : string) (port : Z) (reload : bool) (host : string)
  | RaisedValueError (msg : string)
  | RaisedTypeError.

Definition main (int_of_str : string → option Z) (dotenv environ : Environ)
    : MainOutcome :=
  let environ := load_dotenv_override dotenv environ in
  let PORT := os_getenv_default environ "PORT" (VInt 5002) in
  let RELOAD := isDevelopment environ in
  if decide (PORT = VNone)
  then RaisedValueError "PORT environment variable not set"
  else
    match py_int int_of_str PORT with
    | IntOK PORT => UvicornRun "src.app:app" PORT RELOAD "0.0.0.0"
    | IntValueError =>
        RaisedValueError "PORT environment variable must be an integer"
    | IntTypeError => RaisedTypeError
    end.

(** ** Further notions for the properties *)

(** The value that the last assignment to [key] in a sequence of
    assignments leaves, if there is one. *)
Fixpoint last_assigned (items : Dict) (key : string) : option Value :=
  match items with
  | [] => None
  | (k, v) :: rest =>
      match last_assigned rest key with
      | Some w => Some w
      | None => if decide (k = key) then Some v else None
      end
  end.

(** The identifier [calculate_chunk_ids] computes for position [i]. *)
Definition computed_id (chunks : list Document) (i : nat) (chunk : Document)
    : Value :=
  VStr (current_page_id chunk +:+ ":" +:+
        pretty (spec_index (current_page_id <$> chunks) i)).

(** The characters of a string. *)
Fixpoint chars (s : string) : list ascii :=
  match s with
  | EmptyString => []
  | String a s' => a :: chars s'
  end.

(** ** An in-memory store *)

(** A collection held as a finite map from identifier to entry.  It stands
    in for the on-disk collection when the model is run: identifiers must be
    strings, one per document; a write replaces what is stored under the
    same identifier; a search takes the first [k] matching entries and
    rejects a non-positive [k]. *)
Fixpoint string_ids (ids : list Value) : option (list string) :=
  match ids with
  | [] => Some []
  | VStr x :: rest => xs ← string_ids rest; Some (x :: xs)
  | _ :: _ => None
  end.

Definition mem_add_documents (s : gmap string Document)
    (documents : list Document) (ids : list Value) : option (gmap string Document) :=
  xs ← string_ids ids;
  if decide (length xs = length documents)
  then Some (list_to_map (zip xs documents) ∪ s)
  else None.

Definition mem_similarity_search (s : gmap string Document) (query : string)
    (k : Z) (filter : option Dict) : option (list Document) :=
  if decide (0 < k)%Z
  then Some (take (Z.to_nat k)
               (base.filter (matches_filter filter) (map_to_list s).*2))
  else None.

Lemma string_ids_fmap ids xs : string_ids ids = Some xs → ids = VStr <$> xs.
Proof.
  revert xs. induction ids as [|v ids IH]; intros xs Hxs; simpl in Hxs.
  - by simplify_eq.
  - destruct v; try done. destruct (string_ids ids) as [ys|]; simplify_eq/=.
    f_equal. by apply IH.
Qed.

Lemma elem_of_VStr_fmap x (xs : list string) : VStr x ∈ VStr <$> xs ↔ x ∈ xs.
Proof.
  rewrite list_elem_of_fmap. split.
  - by intros (y & [= ->] & ?).
  - eauto.
Qed.

Lemma zip_fmap_VStr (xs : list string) (documents : list Document) x d :
  (x, d) ∈ zip xs documents → (VStr x, d) ∈ zip (VStr <$> xs) documents.
Proof.
  revert documents. induction xs as [|y xs IH]; intros [|e documents]; simpl;
    try by rewrite ?elem_of_nil.
  rewrite !elem_of_cons. intros [[= -> ->]|?]; [by left|right; by apply IH].
Qed.

Lemma elem_of_map_keys (m : gmap string Document) x :
  x ∈ (map_to_list m).*1 ↔ is_Some (m !! x).
Proof.
  rewrite list_elem_of_fmap. split.
  - intros ([y d] & -> & Hin). apply elem_of_map_to_list in Hin. eauto.
  - intros [d Hd]. exists (x, d). split; [done|]. by apply elem_of_map_to_list.
Qed.

#[global, refine] Instance mem_store : VectorStore (gmap string Document) := {|
  vs_get s := (map_to_list s).*1;
  vs_entry s x := s !! x;
  vs_add_documents := mem_add_documents;
  vs_similarity_search := mem_similarity_search
|}.
Proof.
  - intros s x. apply elem_of_map_keys.
  - intros s documents ids s' x Hadd. unfold mem_add_documents in Hadd.
    destruct (string_ids ids) as [xs|] eqn:Hxs; simplify_eq/=.
    case_decide as Hlen; simplify_eq.
    apply string_ids_fmap in Hxs as ->. rewrite elem_of_VStr_fmap.
    rewrite !elem_of_map_keys, lookup_union, union_is_Some.
    rewrite <-(fst_zip xs documents) at 2 by lia.
    assert (is_Some (list_to_map (M:=gmap string Document) (zip xs documents) !! x)
            ↔ x ∈ (zip xs documents).*1) as ->; [|tauto].
    rewrite <-not_eq_None_Some, <-not_elem_of_list_to_map.
    destruct (decide (x ∈ (zip xs documents).*1)); tauto.
  - intros s documents ids s' v Hadd Hv. unfold mem_add_documents in Hadd.
    destruct (string_ids ids) as [xs|] eqn:Hxs; simplify_eq/=.
    apply string_ids_fmap in Hxs as ->.
    apply list_elem_of_fmap in Hv as (x & -> & _). eauto.
  - intros s documents ids s' x Hadd Hx. unfold mem_add_documents in Hadd.
    destruct (string_ids ids) as [xs|] eqn:Hxs; simplify_eq/=.
    case_decide as Hlen; simplify_eq.
    apply string_ids_fmap in Hxs as ->. rewrite elem_of_VStr_fmap in Hx.
    rewrite lookup_union_r; [done|]. apply not_elem_of_list_to_map.
    by rewrite fst_zip by lia.
  - intros s documents ids s' x d Hadd Hd. unfold mem_add_documents in Hadd.
    destruct (string_ids ids) as [xs|] eqn:Hxs; simplify_eq/=.
    case_decide as Hlen; simplify_eq.
    apply string_ids_fmap in Hxs as ->.
    apply lookup_union_Some_raw in Hd as [Hd|[_ Hd]]; [right|by left].
    by apply zip_fmap_VStr, elem_of_list_to_map_2.
  - intros s query k filter results d Hs Hd. unfold mem_similarity_search in Hs.
    case_decide; simplify_eq.
    apply elem_of_take in Hd as (i & Hd & _).
    apply list_elem_of_lookup_2, list_elem_of_filter in Hd as [Hm Hd].
    split; [done|].
    apply list_elem_of_fmap in Hd as ([x d'] & -> & Hin).
    exists x. by apply elem_of_map_to_list.
Defined.

(** ** An in-memory store with a quota *)

(** The same collection, refusing a write that would leave it with more
    than [quota] entries. *)
Record LimitedStore : Type := mkLimitedStore {
  limited_entries : gmap string Document
}.

Definition quota : nat := 150.

Definition limited_add_documents (s : LimitedStore) (documents : list Document)
    (ids : list Value) : option LimitedStore :=
  entries ← mem_add_documents (limited_entries s) documents ids;
  if decide (size entries ≤ quota) then Some (mkLimitedStore entries) else None.

Lemma limited_add_documents_Some s documents ids s' :
  limited_add_documents s documents ids = Some s' →
  mem_add_documents (limited_entries s) documents ids = Some (limited_entries s').
Proof.
  unfold limited_add_documents.
  destruct (mem_add_documents (limited_entries s) documents ids) as [entries|];
    [|done].
  simpl. case_decide; [|done]. by intros [= <-].
Qed.

#[global, refine] Instance limited_store : VectorStore LimitedStore := {|
  vs_get s := vs_get (limited_entries s);
  vs_entry s x := vs_entry (limited_entries s) x;
  vs_add_documents := limited_add_documents;
  vs_similarity_search s := vs_similarity_search (limited_entries s)
|}.
Proof.
  - intros s x. apply vs_get_entry.
  - intros s documents ids s' x Hadd%limited_add_documents_Some.
    by apply (vs_add_get (limited_entries s) documents).
  - intros s documents ids s' v Hadd%limited_add_documents_Some.
    by apply (vs_add_str (limited_entries s) documents ids (limited_entries s')).
  - intros s documents ids s' x Hadd%limited_add_documents_Some.
    by apply (vs_add_frame (limited_entries s) documents).
  - intros s documents ids s' x d Hadd%limited_add_documents_Some.
    by apply (vs_add_entry (limited_entries s) documents).
  - intros s query k filter results d. apply vs_search_sound.
Defined.

(** ** [calculate_chunk_ids] on objects that may be shared *)

(** The address of a [dict] object. *)
Abbreviation Ref := nat (only parsing).

(** A [Document] object: its text and the address of its metadata
    dictionary.  Two positions of a list share a dictionary when they hold
    the same address, be it because they are one object or because two
    objects were built around one dictionary. *)
Record PyDocument : Type := mkPyDocument {
  py_page_content : string;
  py_metadata : Ref
}.

(** What a call can reach: every dictionary by its address, the collection
    behind the adapter, the store objects built so far and the
    environment. *)
Record World (St : Type) : Type := mkWorld {
  dicts : Ref → gmap string Value;
  collection : St;
  process : Process;
  environ : Environ
}.

Arguments mkWorld {St}.
Arguments dicts {St}.
Arguments collection {St}.
Arguments process {St}.
Arguments environ {St}.

(** The chunk as a reader finds it: its text and the present contents of
    its dictionary. *)
Definition document_at {St} (w : World St) (chunk : PyDocument) : Document :=
  {| page_content := py_page_content chunk;
     metadata := dicts w (py_metadata chunk) |}.

(** [chunk.metadata[key] = value]. *)
Definition set_item_in {St} (key : string) (value : Value) (chunk : PyDocument)
    (w : World St) : World St :=
  {| dicts := <[py_metadata chunk :=
                  <[key := value]> (dicts w (py_metadata chunk))]> (dicts w);
     collection := collection w;
     process := process w;
     environ := environ w |}.

(** [f"{source}:{page}"], read from the chunk's dictionary. *)
Definition current_page_id_in {St} (w : World St) (chunk : PyDocument) : string :=
  py_str (dict_get (dicts w (py_metadata chunk)) "source") +:+ ":" +:+
  py_str (dict_get (dicts w (py_metadata chunk)) "page").

(** [for key, value in item.items(): chunk.metadata[key] = value], where
    [item] is a dictionary of the overlay, given by its address.  The items
    are those the dictionary holds when its turn comes.  Should [item] be
    the chunk's own dictionary, the loop assigns to each key the value it
    already has (see [apply_item_in_self]), so reading the items once is
    the same as reading them one by one. *)
Definition apply_item_in {St} (item : Ref) (chunk : PyDocument) (w : World St)
    : World St :=
  foldl (λ w kv, set_item_in kv.1 kv.2 chunk w) w (map_to_list (dicts w item)).

(** [if metadata: for item in metadata: ...]. *)
Definition apply_metadata_in {St} (md : list Ref) (chunk : PyDocument)
    (w : World St) : World St :=
  match md with
  | [] => w
  | _ => foldl (λ w item, apply_item_in item chunk w) w md
  end.

(** The [for chunk in chunks] loop: every step reads and writes the
    dictionary of its chunk in place. *)
Fixpoint calculate_chunk_ids_in_from {St} (last_page_id : option string)
    (current_chunk_index : nat) (chunks : list PyDocument) (md : list Ref)
    (w : World St) : World St :=
  match chunks with
  | [] => w
  | chunk :: rest =>
      let page_id := current_page_id_in w chunk in
      let index :=
        if decide (Some page_id = last_page_id)
        then S current_chunk_index else 0 in
      let chunk_id := page_id +:+ ":" +:+ pretty index in
      let w := set_item_in "id" (VStr chunk_id) chunk w in
      let w := apply_metadata_in md chunk w in
      calculate_chunk_ids_in_from (Some page_id) index rest md w
  end.

(** [return chunks]: the list that came in, and the world as the loop left
    it. *)
Definition calculate_chunk_ids_in {St} (chunks : list PyDocument) (md : list Ref)
    (w : World St) : list PyDocument * World St :=
  (chunks, calculate_chunk_ids_in_from None 0 chunks md w).

(** The dictionaries a call is handed: those of the chunks and those of the
    overlay. *)
Definition inputs (chunks : list PyDocument) (md : list Ref) : list Ref :=
  (py_metadata <$> chunks) ++ md.

(** Two worlds hold the same dictionaries at the given addresses. *)
Definition agree_on {St1 St2} (refs : list Ref) (w1 : World St1) (w2 : World St2)
    : Prop :=
  Forall (λ l, dicts w1 l = dicts w2 l) refs.

(** The overlay by value. *)
Definition items_at {St} (w : World St) (md : list Ref) : list Dict :=
  (λ item, map_to_list (dicts w item)) <$> md.

(** No dictionary is used by two chunks, or by a chunk and the overlay. *)
Definition no_sharing (chunks : list PyDocument) (md : list Ref) : Prop :=
  NoDup (py_metadata <$> chunks)
  ∧ ∀ item, item ∈ md → item ∉ py_metadata <$> chunks.

(** Two worlds with different collections, store objects and environments,
    and different dictionaries everywhere but at the addresses 0, 1, 2. *)
Definition sample_dicts (elsewhere : gmap string Value) (l : Ref)
    : gmap string Value :=
  match l with
  | 0 | 1 => {["source" := VStr "A"; "page" := VInt 1]}
  | 2 => {["user:owner" := VBool true]}
  | _ => elsewhere
  end.

Definition empty_world : World (gmap string Document) :=
  mkWorld (sample_dicts ∅) ∅ [] ∅.

Definition busy_world : World LimitedStore :=
  mkWorld (sample_dicts {["id" := VStr "B:7:3"]})
    (mkLimitedStore {["A:1:0" := page_chunk "A" 1]})
    [mkChroma CHROMA_PATH (mkEmbeddings "nomic-embed-text" None) "documents"]
    {["PORT" := "8000"]}.

(** Two list positions around one dictionary: the second step overwrites
    the identifier the first one left, so both read A:1:1 afterwards. *)
Example calculate_chunk_ids_in_shared :
  let r := calculate_chunk_ids_in [mkPyDocument "" 0; mkPyDocument "" 0] []
             empty_world in
  chunk_id ∘ document_at r.2 <$> r.1
  = [Some (VStr "A:1:1"); Some (VStr "A:1:1")].
Proof. vm_compute. reflexivity. Qed.

(** * Properties *)

(** ** The metadata overlay *)

Lemma apply_item_lookup_ne item chunk key :
  key ∉ item.*1 →
  metadata (apply_item item chunk) !! key = metadata chunk !! key.
Proof.
  unfold apply_item. revert chunk.
  induction item as [|[k v] item IH]; intros chunk Hkey; [done|].
  simpl in *. apply not_elem_of_cons in Hkey as [Hne Hkey].
  rewrite IH by done. simpl. by rewrite lookup_insert_ne.
Qed.

Lemma apply_metadata_lookup_ne md chunk key :
  key ∉ overlay_keys md →
  metadata (apply_metadata md chunk) !! key = metadata chunk !! key.
Proof.
  intros Hkey.
  assert (metadata (foldl (λ c item, apply_item item c) chunk md) !! key
          = metadata chunk !! key) as Hfold.
  { revert chunk. induction md as [|item md IH]; intros chunk; [done|].
    unfold overlay_keys in Hkey. simpl in Hkey.
    apply not_elem_of_app in Hkey as [Hitem Hmd].
    simpl. rewrite IH by done. by apply apply_item_lookup_ne. }
  by destruct md.
Qed.

Lemma apply_item_is_Some item chunk key :
  is_Some (metadata chunk !! key) →
  is_Some (metadata (apply_item item chunk) !! key).
Proof.
  unfold apply_item. revert chunk.
  induction item as [|[k v] item IH]; intros chunk Hkey; [done|].
  simpl. apply IH. simpl. rewrite lookup_insert. by case_decide.
Qed.

Lemma apply_metadata_is_Some md chunk key :
  is_Some (metadata chunk !! key) →
  is_Some (metadata (apply_metadata md chunk) !! key).
Proof.
  intros Hkey.
  assert (is_Some (metadata (foldl (λ c item, apply_item item c) chunk md) !! key))
    as Hfold.
  { revert chunk Hkey. induction md as [|item md IH]; intros chunk Hkey; [done|].
    simpl. by apply IH, apply_item_is_Some. }
  by destruct md.
Qed.

(** ** The index sequence of the loop *)

Lemma calculate_chunk_ids_from_length last n chunks md :
  length (calculate_chunk_ids_from last n chunks md) = length chunks.
Proof.
  revert last n. induction chunks as [|c chunks IH]; intros last n; simpl; [done|].
  by rewrite IH.
Qed.

Lemma calculate_chunk_ids_from_has_id last n chunks md chunk :
  chunk ∈ calculate_chunk_ids_from last n chunks md → is_Some (chunk_id chunk).
Proof.
  revert last n. induction chunks as [|c chunks IH]; intros last n; simpl.
  - by rewrite elem_of_nil.
  - rewrite elem_of_cons. intros [->|Hin]; [|by eapply IH].
    apply apply_metadata_is_Some. simpl. by rewrite lookup_insert_eq.
Qed.

(** Without an ["id"] key in the overlay, the identifiers left in the
    metadata are those of the loop. *)
Lemma calculate_chunk_ids_from_ids last n chunks md :
  "id" ∉ overlay_keys md →
  chunk_id <$> calculate_chunk_ids_from last n chunks md
  = (λ pi, Some (VStr (make_id pi)))
      <$> index_pairs last n (current_page_id <$> chunks).
Proof.
  intros Hid. revert last n.
  induction chunks as [|c chunks IH]; intros last n; simpl; [done|].
  rewrite IH. f_equal. unfold chunk_id.
  rewrite apply_metadata_lookup_ne by done. simpl. by rewrite lookup_insert_eq.
Qed.

(** ** Identifiers split at their last colon *)

Lemma pretty_N_char_colon x : pretty_N_char x ≠ ":"%char.
Proof. unfold pretty_N_char. by repeat case_match. Qed.

Lemma pretty_N_go_colon_free x s : colon_free s → colon_free (pretty_N_go x s).
Proof.
  revert s. induction (N.lt_wf_0 x) as [x _ IH]; intros s Hs.
  destruct (decide (x = 0)%N) as [->|Hx]; [by rewrite pretty_N_go_0|].
  rewrite pretty_N_go_step by lia. apply IH.
  - apply N.div_lt; lia.
  - split; [apply pretty_N_char_colon|done].
Qed.

Lemma pretty_nat_colon_free (n : nat) : colon_free (pretty n).
Proof.
  unfold pretty, pretty_nat, pretty, pretty_N.
  case_decide; [by repeat split|]. by apply pretty_N_go_colon_free.
Qed.

Lemma colon_split_inj p1 p2 d1 d2 :
  colon_free d1 → colon_free d2 →
  p1 +:+ ":" +:+ d1 = p2 +:+ ":" +:+ d2 → p1 = p2 ∧ d1 = d2.
Proof.
  assert (∀ p d, colon_free (p +:+ ":" +:+ d) → False) as Hno.
  { induction p as [|a p IH]; simpl; intros d; [by intros [? _]|].
    intros [_ ?]. by eapply IH. }
  revert p2. induction p1 as [|a p1 IH]; intros [|b p2] Hd1 Hd2 Heq;
    cbn in Heq.
  - injection Heq as Hrest. split; [done|exact Hrest].
  - injection Heq as _ Hrest.
    assert (d1 = p2 +:+ ":" +:+ d2) as -> by done. exfalso. eauto.
  - injection Heq as _ Hrest.
    assert (d2 = p1 +:+ ":" +:+ d1) as -> by done. exfalso. eauto.
  - injection Heq as -> Hrest. destruct (IH p2) as [-> ->]; done.
Qed.

Lemma make_id_inj : Inj (=) (=) make_id.
Proof.
  intros [p1 i1] [p2 i2] Heq. unfold make_id in Heq. simpl in Heq.
  apply colon_split_inj in Heq as [-> Hi]; [|apply pretty_nat_colon_free..].
  by apply (inj pretty) in Hi as ->.
Qed.

(** ** The loop as a zip of the chunks with their indices *)

Lemma calculate_chunk_ids_from_zip last n chunks md :
  calculate_chunk_ids_from last n chunks md
  = zip_with (λ chunk pi, apply_metadata md (set_item "id" (VStr (make_id pi)) chunk))
      chunks (index_pairs last n (current_page_id <$> chunks)).
Proof.
  revert last n. induction chunks as [|c chunks IH]; intros last n; simpl; [done|].
  by rewrite IH.
Qed.

(** The first index is zero, and each later one follows from the one
    before it by the comparison of the two page identifiers. *)
Lemma index_pairs_step last n page_ids i p m q :
  index_pairs last n page_ids !! i = Some (p, m) →
  page_ids !! S i = Some q →
  index_pairs last n page_ids !! S i = Some (q, if decide (q = p) then S m else 0).
Proof.
  revert last n i. induction page_ids as [|x l IH]; intros last n i Hi Hq; [done|].
  destruct i as [|i]; simpl in *.
  - destruct l as [|y l]; simplify_eq/=. do 2 f_equal.
    repeat case_decide; congruence.
  - eauto.
Qed.

Lemma index_pairs_spec_index page_ids i p :
  page_ids !! i = Some p →
  index_pairs None 0 page_ids !! i = Some (p, spec_index page_ids i).
Proof.
  revert p. induction i as [|i IH]; intros p Hp.
  - by destruct page_ids; simplify_eq/=.
  - destruct (lookup_lt_is_Some_2 page_ids i) as [q Hq].
    { apply lookup_lt_Some in Hp. lia. }
    rewrite (index_pairs_step _ _ _ _ _ _ _ (IH _ Hq) Hp).
    simpl. rewrite Hp, Hq. do 2 f_equal. repeat case_decide; congruence.
Qed.

(** ** No two positions get the same page identifier and index *)

Lemma index_pairs_NoDup p n page_ids :
  no_reentry (p :: page_ids) →
  NoDup (index_pairs (Some p) n page_ids) ∧
  ∀ q m, (q, m) ∈ index_pairs (Some p) n page_ids →
         q ∈ page_ids ∧ (q = p → n < m).
Proof.
  revert p n. induction page_ids as [|q l IH]; intros p n Hre.
  { split; [constructor|]. simpl. by intros ?? ?%elem_of_nil. }
  cbn [index_pairs]. destruct (decide (Some q = Some p)) as [[= ->]|Hne].
  - destruct Hre as [_ Hre]. destruct (IH p (S n) Hre) as [Hnd Hin].
    split.
    + constructor; [|done]. intros Hp. apply Hin in Hp as [_ Hlt].
      specialize (Hlt eq_refl). lia.
    + intros q m. rewrite !elem_of_cons. intros [[= -> ->]|Hqm].
      * split; [by left|lia].
      * apply Hin in Hqm as [? Hlt]. split; [by right|].
        intros Heq. specialize (Hlt Heq). lia.
  - destruct Hre as [Hp Hre]. simpl in Hp.
    rewrite decide_False in Hp by congruence.
    destruct (IH q 0 Hre) as [Hnd Hin]. split.
    + constructor; [|done]. intros Hq. apply Hin in Hq as [_ Hlt].
      specialize (Hlt eq_refl). lia.
    + intros q' m. rewrite !elem_of_cons. intros [[= -> ->]|Hqm].
      * split; [by left|]. intros ->. by destruct Hne.
      * apply Hin in Hqm as [? _]. split; [by right|].
        intros ->. destruct Hp. by right.
Qed.

Lemma index_pairs_NoDup_start page_ids :
  no_reentry page_ids → NoDup (index_pairs None 0 page_ids).
Proof.
  destruct page_ids as [|p l]; [constructor|]. intros Hre.
  cbn [index_pairs]. rewrite decide_False by done.
  destruct (index_pairs_NoDup p 0 l Hre) as [Hnd Hin].
  constructor; [|done]. intros Hp. apply Hin in Hp as [_ Hlt].
  specialize (Hlt eq_refl). lia.
Qed.

(** ** The two wordings of contiguity agree *)

Lemma skip_run_not_elem_of p l :
  p ∉ skip_run p l ↔ ∀ j k, j < k → l !! k = Some p → l !! j = Some p.
Proof.
  induction l as [|x l IH]; simpl.
  { split; [by intros _ ????|]. intros _. apply not_elem_of_nil. }
  destruct (decide (x = p)) as [->|Hne].
  - rewrite IH. split.
    + intros Hl [|j] [|k] Hjk Hk; simpl in *; try done; try lia.
      apply (Hl j k); [lia|done].
    + intros Hl j k Hjk Hk. apply (Hl (S j) (S k)); [lia|done].
  - split.
    + intros Hp j k Hjk Hk. destruct Hp. by eapply list_elem_of_lookup_2.
    + intros Hl [i Hi]%list_elem_of_lookup. destruct i as [|i].
      * simpl in Hi. congruence.
      * specialize (Hl 0 (S i)). simpl in Hl. destruct Hne.
        assert (Some x = Some p) as [= ->] by (apply Hl; [lia|done]). done.
Qed.

Lemma no_reentry_iff page_ids : no_reentry page_ids ↔ pages_contiguous page_ids.
Proof.
  unfold pages_contiguous. induction page_ids as [|q l IH]; simpl.
  { split; [by intros _ ????|done]. }
  rewrite IH, skip_run_not_elem_of. split.
  - intros [Hq Hl] [|i] [|j] [|k] p Hijk Hi Hk; simpl in *; try lia.
    + injection Hi as ->. apply (Hq j k); [lia|done].
    + apply (Hl i j k); [lia|done..].
  - intros Hl. split.
    + intros j k Hjk Hk. apply (Hl 0 (S j) (S k)); [lia|done..].
    + intros i j k p Hijk Hi Hk. apply (Hl (S i) (S j) (S k)); [lia|done..].
Qed.

(** ** Chunk identification *)

(** Closes a decidable goal by evaluating its decision procedure. *)
Ltac by_evaluation :=
  match goal with
  | |- ?P => refine (@bool_decide_unpack P _ _); vm_compute; exact I
  end.

(** C3.  The chunk at position [i] of the result is the input chunk with
    its ["id"] set to [source:page:index] and the overlay applied after it,
    where [index] is zero at the first chunk and whenever [source:page]
    differs from that of the chunk just before, and one more than the
    previous index when the two are equal; so an overlay without an ["id"]
    key leaves exactly that identifier in the metadata.  On [A,pg1],
    [A,pg1], [A,pg2], [A,pg1] the identifiers are A:1:0, A:1:1, A:2:0,
    A:1:0. *)
Theorem chunk_index_reset chunks md i chunk :
  chunks !! i = Some chunk →
  let index := spec_index (current_page_id <$> chunks) i in
  let id := VStr (current_page_id chunk +:+ ":" +:+ pretty index) in
  calculate_chunk_ids chunks md !! i
    = Some (apply_metadata md (set_item "id" id chunk))
  ∧ ("id" ∉ overlay_keys md →
     chunk_id <$> calculate_chunk_ids chunks md !! i = Some (Some id))
  ∧ chunk_id <$> calculate_chunk_ids reentry_chunks []
    = [Some (VStr "A:1:0"); Some (VStr "A:1:1");
       Some (VStr "A:2:0"); Some (VStr "A:1:0")].
Proof.
  intros Hi index id.
  assert (calculate_chunk_ids chunks md !! i
          = Some (apply_metadata md (set_item "id" id chunk))) as Hres.
  { unfold calculate_chunk_ids. rewrite calculate_chunk_ids_from_zip.
    apply lookup_zip_with_Some. exists chunk, (current_page_id chunk, index).
    split_and!; [done..|].
    apply index_pairs_spec_index. by rewrite list_lookup_fmap, Hi. }
  split_and!; [done| |by vm_compute].
  intros Hid. rewrite Hres. simpl. do 2 f_equal. unfold chunk_id.
  rewrite apply_metadata_lookup_ne by done. simpl. by rewrite lookup_insert_eq.
Qed.

Lemma chunk_index_reset_witness :
  calculate_chunk_ids reentry_chunks [] !! 3
  = Some (set_item "id" (VStr "A:1:0") (page_chunk "A" 1)).
Proof.
  exact (proj1 (chunk_index_reset reentry_chunks [] 3 (page_chunk "A" 1) eq_refl)).
Defined.

(** C2, as the code has it.  When the chunks of one [source:page] are next
    to each other in the sequence, so that no page identifier is entered a
    second time, and the overlay assigns no ["id"] key, the identifiers
    assigned by [calculate_chunk_ids] are pairwise distinct. *)
Theorem chunk_ids_unique_without_reentry chunks md :
  "id" ∉ overlay_keys md →
  pages_contiguous (current_page_id <$> chunks) →
  NoDup (chunk_id <$> calculate_chunk_ids chunks md).
Proof.
  intros Hid Hre%no_reentry_iff. unfold calculate_chunk_ids.
  rewrite calculate_chunk_ids_from_ids by done.
  apply NoDup_fmap_2; [|by apply index_pairs_NoDup_start].
  intros pi1 pi2 [= Heq]. by apply make_id_inj.
Qed.

Lemma chunk_ids_unique_without_reentry_witness :
  NoDup (chunk_id <$> calculate_chunk_ids
           [page_chunk "A" 1; page_chunk "A" 1; page_chunk "A" 2] embed_metadata).
Proof.
  apply chunk_ids_unique_without_reentry; [|apply no_reentry_iff]; by_evaluation.
Defined.

(** C2, as stated, fails: on the sequence [A,pg1], [A,pg1], [A,pg2],
    [A,pg1] the first and the last chunk both get the identifier A:1:0. *)
Lemma chunk_ids_collide_on_reentry :
  ¬ NoDup (chunk_id <$> calculate_chunk_ids reentry_chunks []).
Proof. by_evaluation. Qed.

(** *** The loop on shared objects *)

Lemma apply_metadata_foldl md chunk :
  apply_metadata md chunk = foldl (λ c item, apply_item item c) chunk md.
Proof. by destruct md. Qed.

Lemma apply_metadata_in_foldl {St} md chunk (w : World St) :
  apply_metadata_in md chunk w
  = foldl (λ w item, apply_item_in item chunk w) w md.
Proof. by destruct md. Qed.

Lemma set_item_in_dicts {St} key value chunk (w : World St) l :
  dicts (set_item_in key value chunk w) l
  = if decide (py_metadata chunk = l) then <[key:=value]> (dicts w l)
    else dicts w l.
Proof.
  unfold set_item_in; simpl. case_decide as Hl.
  - subst l. by rewrite fn_lookup_insert.
  - by rewrite fn_lookup_insert_ne.
Qed.

(** Assigning a list of items to a chunk's dictionary touches that
    dictionary only, and what it leaves there depends on nothing else. *)
Lemma set_items_in_dicts {St} kvs chunk (w : World St) l :
  dicts (foldl (λ w kv, set_item_in kv.1 kv.2 chunk w) w kvs) l
  = if decide (py_metadata chunk = l)
    then foldl (λ d kv, <[kv.1 := kv.2]> d) (dicts w l) kvs
    else dicts w l.
Proof.
  revert w. induction kvs as [|kv kvs IH]; intros w; simpl.
  - by case_decide.
  - rewrite IH, set_item_in_dicts. by case_decide.
Qed.

Lemma set_items_in_rest {St} kvs chunk (w : World St) :
  let w' := foldl (λ w kv, set_item_in kv.1 kv.2 chunk w) w kvs in
  collection w' = collection w ∧ process w' = process w
  ∧ environ w' = environ w.
Proof.
  revert w. induction kvs as [|kv kvs IH]; intros w; simpl; [done|].
  by destruct (IH (set_item_in kv.1 kv.2 chunk w)) as (-> & -> & ->).
Qed.

Lemma apply_item_in_dicts {St} item chunk (w : World St) l :
  dicts (apply_item_in item chunk w) l
  = if decide (py_metadata chunk = l)
    then foldl (λ d kv, <[kv.1 := kv.2]> d) (dicts w l)
           (map_to_list (dicts w item))
    else dicts w l.
Proof. apply set_items_in_dicts. Qed.

Lemma apply_item_in_rest {St} item chunk (w : World St) :
  let w' := apply_item_in item chunk w in
  collection w' = collection w ∧ process w' = process w
  ∧ environ w' = environ w.
Proof. apply set_items_in_rest. Qed.

(** Assigning to a dictionary the items it holds changes nothing. *)
Lemma insert_own_items (d : gmap string Value) kvs :
  (∀ kv, kv ∈ kvs → d !! kv.1 = Some kv.2) →
  foldl (λ d kv, <[kv.1 := kv.2]> d) d kvs = d.
Proof.
  induction kvs as [|kv kvs IH]; intros Hkvs; simpl; [done|].
  rewrite insert_id by (apply Hkvs; left). apply IH.
  intros kv' Hkv'. apply Hkvs. by right.
Qed.

(** An overlay entry that is the chunk's own dictionary leaves every
    dictionary as it was. *)
Lemma apply_item_in_self {St} chunk (w : World St) l :
  dicts (apply_item_in (py_metadata chunk) chunk w) l = dicts w l.
Proof.
  rewrite apply_item_in_dicts. case_decide as Hl; [|done]. subst l.
  apply insert_own_items. intros [k v] Hkv.
  by apply elem_of_map_to_list in Hkv.
Qed.

Lemma apply_item_metadata item chunk :
  metadata (apply_item item chunk)
  = foldl (λ d kv, <[kv.1 := kv.2]> d) (metadata chunk) item.
Proof.
  revert chunk. induction item as [|kv item IH]; intros chunk; [done|].
  unfold apply_item in *. simpl. by rewrite IH.
Qed.

Lemma apply_item_page_content item chunk :
  page_content (apply_item item chunk) = page_content chunk.
Proof.
  revert chunk. induction item as [|kv item IH]; intros chunk; [done|].
  unfold apply_item in *. simpl. by rewrite IH.
Qed.

Lemma same_document (d1 d2 : Document) :
  page_content d1 = page_content d2 → metadata d1 = metadata d2 → d1 = d2.
Proof. destruct d1, d2; simpl; congruence. Qed.

Lemma apply_metadata_in_frame {St} md chunk (w : World St) :
  let w' := apply_metadata_in md chunk w in
  (∀ l, l ≠ py_metadata chunk → dicts w' l = dicts w l)
  ∧ collection w' = collection w ∧ process w' = process w
  ∧ environ w' = environ w.
Proof.
  rewrite apply_metadata_in_foldl. revert w.
  induction md as [|item md IH]; intros w; simpl; [done|].
  destruct (IH (apply_item_in item chunk w)) as (Hd & -> & -> & ->).
  destruct (apply_item_in_rest item chunk w) as (-> & -> & ->).
  split_and!; try done.
  intros l Hl. rewrite Hd by done. rewrite apply_item_in_dicts.
  rewrite decide_False; [done|congruence].
Qed.

Lemma apply_metadata_in_agree {St1 St2} refs md chunk
    (w1 : World St1) (w2 : World St2) :
  md ⊆ refs →
  agree_on refs w1 w2 →
  agree_on refs (apply_metadata_in md chunk w1) (apply_metadata_in md chunk w2).
Proof.
  rewrite !apply_metadata_in_foldl. revert w1 w2.
  induction md as [|item md IH]; intros w1 w2 Hmd Hagree; simpl; [done|].
  apply IH; [by intros x Hx; apply Hmd; right|].
  unfold agree_on in *. rewrite Forall_forall in *. intros l Hl.
  rewrite !apply_item_in_dicts.
  assert (item ∈ refs) as Hitem by (apply Hmd; left).
  by rewrite (Hagree l Hl), (Hagree item Hitem).
Qed.

(** The loop writes to the dictionaries of its chunks and to nothing
    else. *)
Lemma calculate_chunk_ids_in_from_frame {St} last n chunks md (w : World St) :
  let w' := calculate_chunk_ids_in_from last n chunks md w in
  (∀ l, l ∉ py_metadata <$> chunks → dicts w' l = dicts w l)
  ∧ collection w' = collection w ∧ process w' = process w
  ∧ environ w' = environ w.
Proof.
  revert last n w.
  induction chunks as [|chunk chunks IH]; intros last n w; [done|].
  cbn -[apply_metadata_in set_item_in].
  match goal with
  | |- context [calculate_chunk_ids_in_from ?l ?i chunks md ?w0] =>
      destruct (IH l i w0) as (Hd & -> & -> & ->);
      destruct (apply_metadata_in_frame md chunk
                  (set_item_in "id"
                     (VStr (current_page_id_in w chunk +:+ ":" +:+ pretty i))
                     chunk w))
        as (Hd' & -> & -> & ->)
  end.
  split_and!; try done.
  intros l [Hl1 Hl2]%not_elem_of_cons.
  rewrite Hd, Hd' by done. rewrite set_item_in_dicts.
  rewrite decide_False; [done|congruence].
Qed.

(** Worlds that agree on a set of dictionaries holding those of the chunks
    and of the overlay still agree on it after the loop. *)
Lemma calculate_chunk_ids_in_from_agree {St1 St2} refs last n chunks md
    (w1 : World St1) (w2 : World St2) :
  py_metadata <$> chunks ⊆ refs → md ⊆ refs →
  agree_on refs w1 w2 →
  agree_on refs (calculate_chunk_ids_in_from last n chunks md w1)
                (calculate_chunk_ids_in_from last n chunks md w2).
Proof.
  revert last n w1 w2.
  induction chunks as [|chunk chunks IH];
    intros last n w1 w2 Hchunks Hmd Hagree; [done|].
  cbn -[apply_metadata_in set_item_in].
  assert (dicts w1 (py_metadata chunk) = dicts w2 (py_metadata chunk)) as Hc.
  { unfold agree_on in Hagree. rewrite Forall_forall in Hagree.
    apply Hagree, Hchunks. left. }
  assert (current_page_id_in w1 chunk = current_page_id_in w2 chunk) as ->.
  { unfold current_page_id_in. by rewrite Hc. }
  apply IH; [by intros x Hx; apply Hchunks; right|done|].
  apply apply_metadata_in_agree; [done|].
  unfold agree_on in *. rewrite Forall_forall in *. intros l Hl.
  rewrite !set_item_in_dicts. by rewrite (Hagree l Hl).
Qed.

Lemma apply_metadata_in_document {St} md chunk (w : World St) :
  py_metadata chunk ∉ md →
  document_at (apply_metadata_in md chunk w) chunk
  = apply_metadata (items_at w md) (document_at w chunk).
Proof.
  rewrite apply_metadata_in_foldl, apply_metadata_foldl. revert w.
  induction md as [|item md IH]; intros w Hmd; simpl; [done|].
  apply not_elem_of_cons in Hmd as [Hitem Hmd].
  rewrite IH by done. f_equal.
  - apply same_document.
    + by rewrite apply_item_page_content.
    + rewrite apply_item_metadata. simpl. rewrite apply_item_in_dicts.
      by rewrite decide_True.
  - unfold items_at. apply list_fmap_ext. intros i item' Hi.
    rewrite apply_item_in_dicts. rewrite decide_False; [done|].
    intros Heq. apply Hmd. rewrite Heq. by apply list_elem_of_lookup_2 in Hi.
Qed.

(** Without sharing, the loop on addresses does to the chunks what the
    loop on values does. *)
Lemma calculate_chunk_ids_in_from_documents {St} last n chunks md (w : World St) :
  no_sharing chunks md →
  document_at (calculate_chunk_ids_in_from last n chunks md w) <$> chunks
  = calculate_chunk_ids_from last n (document_at w <$> chunks) (items_at w md).
Proof.
  revert last n w.
  induction chunks as [|chunk chunks IH]; intros last n w [Hnd Hmd]; [done|].
  rewrite fmap_cons in Hnd. apply NoDup_cons in Hnd as [Hchunk Hnd].
  assert (py_metadata chunk ∉ md) as Hcmd.
  { intros Hin. apply (Hmd _ Hin). rewrite fmap_cons. left. }
  assert (no_sharing chunks md) as Hrest.
  { split; [done|]. intros item Hin Hin'. apply (Hmd _ Hin).
    rewrite fmap_cons. by right. }
  rewrite !fmap_cons. cbn -[apply_metadata_in set_item_in apply_metadata set_item].
  change (current_page_id (document_at w chunk))
    with (current_page_id_in w chunk).
  set (index := if decide (Some (current_page_id_in w chunk) = last)
                then S n else 0).
  set (id := VStr (current_page_id_in w chunk +:+ ":" +:+ pretty index)).
  set (w1 := apply_metadata_in md chunk (set_item_in "id" id chunk w)).
  destruct (calculate_chunk_ids_in_from_frame
              (Some (current_page_id_in w chunk)) index chunks md w1)
    as (Hd & _).
  destruct (apply_metadata_in_frame md chunk (set_item_in "id" id chunk w))
    as (Hd1 & _). fold w1 in Hd1.
  assert (∀ l, l ≠ py_metadata chunk → dicts w1 l = dicts w l) as Hd2.
  { intros l Hl. rewrite Hd1 by done. rewrite set_item_in_dicts.
    rewrite decide_False; [done|congruence]. }
  f_equal.
  - unfold document_at at 1. rewrite Hd by done.
    change (document_at w1 chunk
            = apply_metadata (items_at w md)
                (set_item "id" id (document_at w chunk))).
    unfold w1. rewrite apply_metadata_in_document by done. f_equal.
    + unfold items_at. apply list_fmap_ext. intros i item Hi.
      rewrite set_item_in_dicts. rewrite decide_False; [done|].
      intros Heq. apply Hcmd. rewrite Heq.
      by apply list_elem_of_lookup_2 in Hi.
    + unfold document_at, set_item. simpl. by rewrite fn_lookup_insert.
  - rewrite IH by done. f_equal.
    + apply list_fmap_ext. intros i c Hi. unfold document_at.
      rewrite Hd2; [done|]. intros Heq. apply Hchunk. rewrite <- Heq.
      apply list_elem_of_fmap. exists c.
      split; [done|]. by apply list_elem_of_lookup_2 in Hi.
    + unfold items_at. apply list_fmap_ext. intros i item Hi.
      rewrite Hd2; [done|]. intros Heq. apply Hcmd. rewrite <- Heq.
      by apply list_elem_of_lookup_2 in Hi.
Qed.

(** C4.  [calculate_chunk_ids] is run in two worlds, which may hold
    different collections, store objects and environments and different
    dictionaries, and agree only on the dictionaries the call is handed:
    those of the chunks and those of the overlay, shared among the chunks
    or not.  Then the chunks read back after the two runs are equal, and so
    are their identifiers, and the two worlds still agree on the
    dictionaries handed in.  A run writes to the dictionaries of its chunks
    and to nothing else: every other dictionary, the collection, the store
    objects and the environment are as before.  When no dictionary is
    shared, the chunks read back are those that [calculate_chunk_ids], the
    function of the chunk sequence and the overlay by value, computes; so a
    run on other objects in another world that hold the same values, again
    unshared, leaves the same chunks and the same identifiers. *)
Theorem calculate_chunk_ids_noninterference {St1 St2 : Type}
    (w1 : World St1) (w2 : World St2) chunks md :
  agree_on (inputs chunks md) w1 w2 →
  let r1 := calculate_chunk_ids_in chunks md w1 in
  let r2 := calculate_chunk_ids_in chunks md w2 in
  document_at r1.2 <$> r1.1 = document_at r2.2 <$> r2.1
  ∧ agree_on (inputs chunks md) r1.2 r2.2
  ∧ (∀ l, l ∉ py_metadata <$> chunks → dicts r1.2 l = dicts w1 l)
  ∧ collection r1.2 = collection w1 ∧ process r1.2 = process w1
  ∧ environ r1.2 = environ w1
  ∧ (no_sharing chunks md →
     document_at r1.2 <$> r1.1
     = calculate_chunk_ids (document_at w1 <$> chunks) (items_at w1 md))
  ∧ (no_sharing chunks md →
     ∀ (St3 : Type) (w3 : World St3) chunks' md',
       no_sharing chunks' md' →
       document_at w3 <$> chunks' = document_at w1 <$> chunks →
       items_at w3 md' = items_at w1 md →
       let r3 := calculate_chunk_ids_in chunks' md' w3 in
       document_at r3.2 <$> r3.1 = document_at r1.2 <$> r1.1).
Proof.
  intros Hagree r1 r2. unfold r1, r2, calculate_chunk_ids_in. simpl.
  assert (agree_on (inputs chunks md)
            (calculate_chunk_ids_in_from None 0 chunks md w1)
            (calculate_chunk_ids_in_from None 0 chunks md w2)) as Hafter.
  { apply calculate_chunk_ids_in_from_agree; [| |done]; unfold inputs.
    - intros l Hl. apply elem_of_app. by left.
    - intros l Hl. apply elem_of_app. by right. }
  destruct (calculate_chunk_ids_in_from_frame None 0 chunks md w1)
    as (Hd & Hcollection & Hprocess & Henviron).
  split_and!; try done.
  - apply list_fmap_ext. intros i chunk Hi. unfold document_at. f_equal.
    unfold agree_on in Hafter. rewrite Forall_forall in Hafter.
    apply Hafter. unfold inputs. apply elem_of_app. left.
    apply list_elem_of_fmap. exists chunk.
    split; [done|]. by apply list_elem_of_lookup_2 in Hi.
  - intros Hno. by apply calculate_chunk_ids_in_from_documents.
  - intros Hno St3 w3 chunks' md' Hno' Hchunks Hitems. simpl.
    rewrite !calculate_chunk_ids_in_from_documents by done.
    by rewrite Hchunks, Hitems.
Qed.

Lemma calculate_chunk_ids_noninterference_witness :
  agree_on (inputs [mkPyDocument "a" 0; mkPyDocument "b" 1] [2])
    empty_world busy_world
  ∧ let chunks := [mkPyDocument "a" 0; mkPyDocument "b" 1] in
    let r1 := calculate_chunk_ids_in chunks [2] empty_world in
    let r2 := calculate_chunk_ids_in chunks [2] busy_world in
    document_at r1.2 <$> r1.1 = document_at r2.2 <$> r2.1.
Proof.
  assert (agree_on (inputs [mkPyDocument "a" 0; mkPyDocument "b" 1] [2])
            empty_world busy_world) as Hagree.
  { repeat constructor. }
  split; [exact Hagree|].
  exact (proj1 (calculate_chunk_ids_noninterference empty_world busy_world
                  [mkPyDocument "a" 0; mkPyDocument "b" 1] [2] Hagree)).
Defined.

(** ** Batches *)

Lemma elem_of_concat {A} (ls : list (list A)) (x : A) :
  x ∈ concat ls ↔ ∃ l, l ∈ ls ∧ x ∈ l.
Proof.
  rewrite list_elem_of_In, in_concat. split.
  - intros (l & ? & ?). exists l. by rewrite !list_elem_of_In.
  - intros (l & ? & ?). exists l. by rewrite <-!list_elem_of_In.
Qed.

Lemma slices_concat {A} (n k : nat) (l : list A) :
  length l ≤ k * n →
  concat ((λ i, slice l i n) <$> ((λ q, q * n) <$> seq 0 k)) = l.
Proof.
  revert l. induction k as [|k IH]; intros l Hlen.
  - destruct l; [done|]. simpl in Hlen. lia.
  - cbn [seq fmap list_fmap concat]. rewrite <-fmap_S_seq, <-!list_fmap_compose.
    transitivity (take n l ++ drop n l); [|apply take_drop]. f_equal.
    rewrite <-(IH (drop n l)) by (rewrite length_drop; lia).
    rewrite <-list_fmap_compose.
    f_equal. apply list_fmap_ext. intros _ q _. unfold slice. simpl.
    by rewrite drop_drop.
Qed.

Lemma slices_lengths {A} (n k : nat) (l : list A) :
  0 < n → k * n < length l + n →
  Forall (λ b : list A, 0 < length b ≤ n)
    ((λ i, slice l i n) <$> ((λ q, q * n) <$> seq 0 k)).
Proof.
  intros Hn Hk. rewrite <-list_fmap_compose. apply Forall_fmap, Forall_forall.
  intros q Hq%elem_of_seq. unfold slice. simpl.
  rewrite length_take, length_drop. nia.
Qed.

Lemma py_range_count (stop step : nat) :
  0 < step →
  let k := (stop + step - 1) `div` step in
  stop ≤ k * step ∧ k * step < stop + step.
Proof.
  intros Hstep k.
  pose proof (Nat.div_mod_eq (stop + step - 1) step) as Hdm.
  pose proof (Nat.mod_upper_bound (stop + step - 1) step) as Hmod.
  fold k in Hdm. nia.
Qed.

(** A positive batch size cuts the list into consecutive non-empty pieces
    of at most that size. *)
Lemma batch_partition {A} (l : list A) (n : Z) :
  (0 < n)%Z →
  ∃ batches, batch l n = inr batches
    ∧ concat batches = l
    ∧ Forall (λ b : list A, 0 < length b ≤ Z.to_nat n) batches.
Proof.
  intros Hn. unfold batch. rewrite !decide_False by lia. eexists. split; [done|].
  destruct (py_range_count (length l) (Z.to_nat n)) as [Hle Hlt]; [lia|].
  split; [by apply slices_concat|apply slices_lengths; lia].
Qed.

Lemma batch_250 {A} (l : list A) :
  length l = 250 →
  batch l 100 = inr [slice l 0 100; slice l 100 100; slice l 200 100]
  ∧ length (slice l 0 100) = 100
  ∧ length (slice l 100 100) = 100
  ∧ length (slice l 200 100) = 50.
Proof.
  intros Hlen. unfold batch. rewrite !decide_False by lia. rewrite Hlen.
  split; [done|]. unfold slice. rewrite !length_take, !length_drop. lia.
Qed.

(** ** Selecting the new chunks *)

Lemma filter_none {A} (P : A → Prop) `{!∀ x, Decision (P x)} (l : list A) :
  (∀ x, x ∈ l → ¬ P x) → filter P l = [].
Proof.
  intros Hl. destruct (filter P l) as [|x k] eqn:Hf; [done|].
  assert (x ∈ filter P l) as [Hx Hin]%list_elem_of_filter by (rewrite Hf; by left).
  by destruct (Hl x).
Qed.

Lemma select_new_filter existing_ids chunks :
  (∀ c, c ∈ chunks → is_Some (chunk_id c)) →
  select_new existing_ids chunks
  = inr (filter (λ c, ¬ already_stored existing_ids c) chunks).
Proof.
  induction chunks as [|c chunks IH]; intros Hids; [done|].
  simpl. destruct (Hids c) as [v Hv]; [by left|]. rewrite Hv.
  rewrite IH by (intros; apply Hids; by right). simpl.
  assert (already_stored existing_ids c ↔ id_in v existing_ids) as Hc.
  { unfold already_stored. by rewrite Hv. }
  rewrite filter_cons. destruct (decide (id_in v existing_ids)).
  - rewrite decide_False by tauto. done.
  - rewrite decide_True by tauto. done.
Qed.

Lemma chunk_ids_cons c b ids :
  chunk_ids (c :: b) = inr ids →
  ∃ v ids', chunk_id c = Some v ∧ chunk_ids b = inr ids' ∧ ids = v :: ids'.
Proof.
  simpl. destruct (chunk_id c) as [v|]; [|done].
  destruct (chunk_ids b) as [|ids']; [done|]. intros [= <-]. eauto.
Qed.

Lemma chunk_ids_zip b ids :
  chunk_ids b = inr ids → zip ids b = (λ c, (default VNone (chunk_id c), c)) <$> b.
Proof.
  revert ids. induction b as [|c b IH]; intros ids Hids.
  - by injection Hids as <-.
  - apply chunk_ids_cons in Hids as (v & ids' & Hv & Hids & ->).
    simpl. rewrite Hv. f_equal. by apply IH.
Qed.

Lemma chunk_ids_fmap b ids :
  chunk_ids b = inr ids → Some <$> ids = chunk_id <$> b.
Proof.
  revert ids. induction b as [|c b IH]; intros ids Hids.
  - by injection Hids as <-.
  - apply chunk_ids_cons in Hids as (v & ids' & Hv & Hids & ->).
    simpl. rewrite Hv. f_equal. by apply IH.
Qed.

Lemma chunk_ids_elem b ids v :
  chunk_ids b = inr ids → v ∈ ids ↔ ∃ c, c ∈ b ∧ chunk_id c = Some v.
Proof.
  intros Hids%chunk_ids_fmap. split.
  - intros Hv. assert (Some v ∈ chunk_id <$> b) as Hin.
    { rewrite <-Hids. by apply list_elem_of_fmap_2. }
    apply list_elem_of_fmap in Hin as (c & ? & ?). eauto.
  - intros (c & Hc & Hv). assert (Some v ∈ Some <$> ids) as Hin.
    { rewrite Hids, <-Hv. by apply list_elem_of_fmap_2. }
    by apply list_elem_of_fmap in Hin as (? & [= <-] & ?).
Qed.

Lemma chunk_ids_elem_of b ids c :
  chunk_ids b = inr ids → c ∈ b → ∃ v, chunk_id c = Some v ∧ v ∈ ids.
Proof.
  intros Hids%chunk_ids_fmap Hc.
  assert (chunk_id c ∈ chunk_id <$> b) as Hin by by apply list_elem_of_fmap_2.
  rewrite <-Hids in Hin. apply list_elem_of_fmap in Hin as (v & -> & ?). eauto.
Qed.

(** ** Writing the batches *)

Section write_batches.
Context {S : Type} `{!VectorStore S}.

Lemma write_batches_cons b rest (s : S) :
  write_batches (b :: rest) s
  = match chunk_ids b with
    | inl e => mkRun s [] (inl e)
    | inr ids =>
        match vs_add_documents s b ids with
        | None =>
            mkRun s [CallAddDocuments b ids] (inl (LibraryError "add_documents"))
        | Some s' =>
            let r := write_batches rest s' in
            mkRun (run_store r) (CallAddDocuments b ids :: run_calls r)
              (run_result r)
        end
    end.
Proof.
  simpl. unfold bind_a, lift_a, store_add_documents. simpl.
  destruct (chunk_ids b); simpl; [done|].
  by destruct (vs_add_documents _ _ _).
Qed.

(** Stored identifiers stay stored. *)
Lemma write_batches_mono batches (s : S) x :
  x ∈ vs_get s → x ∈ vs_get (run_store (write_batches batches s)).
Proof.
  revert s. induction batches as [|b rest IH]; intros s Hx; [done|].
  rewrite write_batches_cons. destruct (chunk_ids b) as [|ids]; [done|].
  destruct (vs_add_documents s b ids) as [s'|] eqn:Hadd; [|done].
  simpl. apply IH. apply (vs_add_get _ _ _ _ x Hadd). by left.
Qed.

(** An entry whose identifier is not that of a written chunk is untouched. *)
Lemma write_batches_frame batches (s : S) x :
  (∀ b c, b ∈ batches → c ∈ b → chunk_id c ≠ Some (VStr x)) →
  vs_entry (run_store (write_batches batches s)) x = vs_entry s x.
Proof.
  revert s. induction batches as [|b rest IH]; intros s Hx; [done|].
  rewrite write_batches_cons. destruct (chunk_ids b) as [|ids] eqn:Hids; [done|].
  destruct (vs_add_documents s b ids) as [s'|] eqn:Hadd; [|done].
  simpl. rewrite IH by (intros b' c ??; apply (Hx b' c); [by right|done]).
  apply (vs_add_frame _ _ _ _ _ Hadd).
  rewrite (chunk_ids_elem _ _ _ Hids). intros (c & Hc & Hv).
  by apply (Hx b c); [left|..].
Qed.

(** Every entry of the collection afterwards was there before or is a
    written chunk, stored under its own identifier. *)
Lemma write_batches_entry batches (s : S) x d :
  vs_entry (run_store (write_batches batches s)) x = Some d →
  vs_entry s x = Some d
  ∨ ∃ b, b ∈ batches ∧ d ∈ b ∧ chunk_id d = Some (VStr x).
Proof.
  revert s. induction batches as [|b rest IH]; intros s Hd; [by left|].
  rewrite write_batches_cons in Hd.
  destruct (chunk_ids b) as [|ids] eqn:Hids; [by left|].
  destruct (vs_add_documents s b ids) as [s'|] eqn:Hadd; [|by left].
  simpl in Hd. apply IH in Hd as [Hd|(b' & ? & ? & ?)].
  - apply (vs_add_entry _ _ _ _ _ _ Hadd) in Hd as [Hd|Hd]; [by left|right].
    rewrite (chunk_ids_zip _ _ Hids) in Hd.
    apply list_elem_of_fmap in Hd as (c & [= Hv ->] & Hc).
    exists b. split_and!; [by left|done|].
    destruct (chunk_ids_elem_of _ _ _ Hids Hc) as (v & Hcd & _).
    rewrite Hcd in Hv |- *. simpl in Hv. by subst.
  - right. exists b'. split_and!; [by right|done..].
Qed.

(** Every call made is the write of one of the batches. *)
Lemma write_batches_calls batches (s : S) call :
  call ∈ run_calls (write_batches batches s) →
  ∃ b, b ∈ batches ∧ writes_batch call b.
Proof.
  revert s. induction batches as [|b rest IH]; intros s Hcall.
  { by apply elem_of_nil in Hcall. }
  rewrite write_batches_cons in Hcall.
  destruct (chunk_ids b) as [|ids] eqn:Hids; [by apply elem_of_nil in Hcall|].
  assert (writes_batch (CallAddDocuments b ids) b) as Hb by (by exists ids).
  destruct (vs_add_documents s b ids) as [s'|] eqn:Hadd; simpl in Hcall.
  - apply elem_of_cons in Hcall as [->|Hcall].
    + exists b. split; [by left|done].
    + apply IH in Hcall as (b' & ? & ?). exists b'. split; [by right|done].
  - apply list_elem_of_singleton in Hcall as ->. exists b. split; [by left|done].
Qed.

(** A run that returns has written every batch, in order, one call each,
    and every written identifier is a string that is now stored. *)
Lemma write_batches_succeeded batches (s : S) :
  succeeded (write_batches batches s) →
  Forall2 writes_batch (run_calls (write_batches batches s)) batches
  ∧ ∀ b c, b ∈ batches → c ∈ b →
      ∃ x, chunk_id c = Some (VStr x)
           ∧ x ∈ vs_get (run_store (write_batches batches s)).
Proof.
  revert s. induction batches as [|b rest IH]; intros s Hok.
  { split; [constructor|]. intros b c Hb. by apply elem_of_nil in Hb. }
  rewrite write_batches_cons in Hok |- *. unfold succeeded in Hok.
  destruct (chunk_ids b) as [|ids] eqn:Hids; [done|].
  destruct (vs_add_documents s b ids) as [s'|] eqn:Hadd; [|done].
  simpl in *. destruct (IH s' Hok) as [Hcalls Hstored]. split.
  - constructor; [by exists ids|done].
  - intros b' c [->|Hb']%elem_of_cons Hc; [|by eapply Hstored].
    destruct (chunk_ids_elem_of _ _ _ Hids Hc) as (v & Hv & Hin). rewrite Hv.
    destruct (vs_add_str _ _ _ _ v Hadd Hin) as [x ->].
    exists x. split; [done|]. apply write_batches_mono.
    apply (vs_add_get _ _ _ _ x Hadd). by right.
Qed.

End write_batches.

(** ** Ingestion *)

Lemma calculate_chunk_ids_elem chunks md c :
  c ∈ calculate_chunk_ids chunks md →
  is_Some (chunk_id c)
  ∧ ∃ c0 id, c = apply_metadata md (set_item "id" id c0).
Proof.
  intros Hc. split; [by eapply calculate_chunk_ids_from_has_id|].
  unfold calculate_chunk_ids in Hc. rewrite calculate_chunk_ids_from_zip in Hc.
  apply elem_of_lookup_zip_with in Hc as (i & c0 & pi & -> & _ & _). eauto.
Qed.

Section ingestion.
Context {S : Type} `{!VectorStore S}.

Lemma add_documents_select documents md (s : S) :
  select_new (list_to_set (vs_get s)) (calculate_chunk_ids documents md)
  = inr (new_chunks_for (vs_get s) (calculate_chunk_ids documents md)).
Proof.
  apply select_new_filter. intros c Hc.
  by apply calculate_chunk_ids_elem in Hc as [? _].
Qed.

(** Nothing new: one [get], no write, the dictionary returned. *)
Lemma add_documents_no_new documents md (s : S) :
  new_chunks_for (vs_get s) (calculate_chunk_ids documents md) = [] →
  add_documents documents md s = mkRun s [CallGet] (inr (Some no_new_documents)).
Proof.
  intros Hnew. unfold add_documents, bind_a, self_calculate_chunk_ids.
  cbn -[select_new calculate_chunk_ids].
  by rewrite add_documents_select, Hnew.
Qed.

(** Something new: one [get], then the batches of [batch new_chunks 100]. *)
Lemma add_documents_new documents md (s : S) :
  let new_chunks := new_chunks_for (vs_get s) (calculate_chunk_ids documents md) in
  new_chunks ≠ [] →
  ∃ batches,
    batch new_chunks 100 = inr batches
    ∧ concat batches = new_chunks
    ∧ Forall (λ b : list Document, 0 < length b ≤ 100) batches
    ∧ add_documents documents md s
      = let r := write_batches batches s in
        mkRun (run_store r) (CallGet :: run_calls r)
          (match run_result r with inl e => inl e | inr _ => inr None end).
Proof.
  intros new_chunks Hnew.
  destruct (batch_partition new_chunks 100) as (batches & Hb & Hcat & Hlen); [lia|].
  exists batches. split_and!; [done..|].
  unfold add_documents, bind_a, self_calculate_chunk_ids.
  cbn -[batch write_batches select_new calculate_chunk_ids].
  rewrite add_documents_select. fold new_chunks.
  destruct new_chunks as [|c new_chunks'] eqn:Heq; [done|].
  cbn -[batch write_batches]. rewrite Hb. cbn -[write_batches].
  destruct (run_result (write_batches batches s)); cbn -[write_batches];
    by rewrite ?app_nil_r.
Qed.

(** After a run that returned, every computed identifier is stored. *)
Lemma add_documents_all_stored documents md (s : S) c :
  succeeded (add_documents documents md s) →
  c ∈ calculate_chunk_ids documents md →
  already_stored (list_to_set (vs_get (run_store (add_documents documents md s)))) c.
Proof.
  intros Hok Hc.
  set (new_chunks := new_chunks_for (vs_get s) (calculate_chunk_ids documents md)).
  assert (already_stored (list_to_set (vs_get s)) c ∨ c ∈ new_chunks) as Hcases.
  { destruct (decide (already_stored (list_to_set (vs_get s)) c)); [by left|].
    right. by apply list_elem_of_filter. }
  destruct (decide (new_chunks = [])) as [Hnil|Hnew].
  - rewrite add_documents_no_new by done. simpl.
    destruct Hcases as [?|Hin]; [done|]. rewrite Hnil in Hin.
    by apply elem_of_nil in Hin.
  - destruct (add_documents_new documents md s Hnew)
      as (batches & _ & Hcat & _ & Hrun).
    rewrite Hrun in Hok |- *. unfold succeeded in Hok. simpl in *.
    assert (succeeded (write_batches batches s)) as Hw.
    { unfold succeeded. by destruct (run_result (write_batches batches s)). }
    destruct Hcases as [Hc0|Hin].
    + unfold already_stored in *. destruct (chunk_id c) as [[| | |x]|]; try done.
      simpl in *. rewrite elem_of_list_to_set in Hc0 |- *.
      by apply write_batches_mono.
    + fold new_chunks in Hcat. rewrite <-Hcat in Hin.
      apply elem_of_concat in Hin as (b & Hb & Hcb).
      destruct (write_batches_succeeded batches s Hw) as [_ Hst].
      destruct (Hst b c Hb Hcb) as (x & Hx & Hin). unfold already_stored.
      rewrite Hx. simpl. by rewrite elem_of_list_to_set.
Qed.

End ingestion.

(** C1.  After a call of [add_documents] that returned, a second call on
    chunks that get the same identifiers finds every identifier among the
    stored ones: the list of new chunks is empty, the only store call is the
    [get], nothing is written, the dictionary "no new valid documents" is
    returned, and the collection, hence its number of stored chunks, is
    unchanged. *)
Theorem add_documents_idempotent {S : Type} `{!VectorStore S} (s : S)
    documents md documents' md' :
  let r1 := add_documents documents md s in
  succeeded r1 →
  chunk_id <$> calculate_chunk_ids documents' md'
    = chunk_id <$> calculate_chunk_ids documents md →
  let r2 := add_documents documents' md' (run_store r1) in
  select_new (list_to_set (vs_get (run_store r1)))
      (calculate_chunk_ids documents' md') = inr []
  ∧ run_calls r2 = [CallGet]
  ∧ run_result r2 = inr (Some no_new_documents)
  ∧ run_store r2 = run_store r1
  ∧ length (vs_get (run_store r2)) = length (vs_get (run_store r1)).
Proof.
  intros r1 Hok Hids r2.
  assert (new_chunks_for (vs_get (run_store r1))
            (calculate_chunk_ids documents' md') = []) as Hnew.
  { apply filter_none. intros c' Hc' Hnot. apply Hnot.
    assert (chunk_id c' ∈ chunk_id <$> calculate_chunk_ids documents md) as Hin.
    { rewrite <-Hids. by apply list_elem_of_fmap_2. }
    apply list_elem_of_fmap in Hin as (c & Hcc & Hc).
    pose proof (add_documents_all_stored documents md s c Hok Hc) as Hst.
    unfold already_stored in *. by rewrite Hcc. }
  split.
  { by rewrite add_documents_select, Hnew. }
  unfold r2. by rewrite add_documents_no_new.
Qed.

Lemma add_documents_idempotent_witness :
  let documents := [page_chunk "A" 1; page_chunk "A" 1; page_chunk "A" 2] in
  let s1 := run_store (add_documents documents embed_metadata
                         (∅ : gmap string Document)) in
  run_calls (add_documents documents embed_metadata s1) = [CallGet]
  ∧ length (vs_get s1) = 3.
Proof.
  intros documents s1.
  destruct (add_documents_idempotent (∅ : gmap string Document)
              documents embed_metadata documents embed_metadata)
    as (_ & Hcalls & _); [by vm_compute|reflexivity|].
  split; [exact Hcalls|by vm_compute].
Defined.

(** C5.  A call of [add_documents] that returns makes, after the [get], one
    write per batch, where the batches are consecutive pieces of the list of
    new chunks, in order, each of at least one and at most 100 chunks, whose
    concatenation is that list; 250 new chunks make three writes, of 100,
    100 and 50 chunks. *)
Theorem add_documents_batches {S : Type} `{!VectorStore S} (s : S) documents md :
  let new_chunks := new_chunks_for (vs_get s) (calculate_chunk_ids documents md) in
  let r := add_documents documents md s in
  succeeded r →
  ∃ calls batches,
    run_calls r = CallGet :: calls
    ∧ Forall2 writes_batch calls batches
    ∧ concat batches = new_chunks
    ∧ Forall (λ b : list Document, 0 < length b ≤ 100) batches
    ∧ (length new_chunks = 250 →
       length calls = 3 ∧ length <$> batches = [100; 100; 50]).
Proof.
  intros new_chunks r Hok. destruct (decide (new_chunks = [])) as [Hnil|Hnew].
  - exists [], []. unfold r. rewrite add_documents_no_new by done.
    rewrite Hnil. split_and!; try done; constructor.
  - destruct (add_documents_new documents md s Hnew)
      as (batches & Hb & Hcat & Hlen & Hrun).
    fold new_chunks in Hb, Hcat. unfold r in *. rewrite Hrun in Hok |- *.
    unfold succeeded in Hok. simpl in *.
    assert (succeeded (write_batches batches s)) as Hw.
    { unfold succeeded. by destruct (run_result (write_batches batches s)). }
    destruct (write_batches_succeeded batches s Hw) as [Hcalls _].
    exists (run_calls (write_batches batches s)), batches.
    split_and!; try done.
    intros H250. destruct (batch_250 new_chunks H250) as (Hb' & H1 & H2 & H3).
    rewrite Hb' in Hb. injection Hb as <-.
    split; [by apply Forall2_length in Hcalls|]. simpl. by rewrite H1, H2, H3.
Qed.

Lemma add_documents_batches_witness :
  ∃ calls batches,
    run_calls (add_documents (replicate 250 (page_chunk "A" 1)) []
                 (∅ : gmap string Document)) = CallGet :: calls
    ∧ Forall2 writes_batch calls batches
    ∧ length calls = 3
    ∧ length <$> batches = [100; 100; 50].
Proof.
  destruct (add_documents_batches (∅ : gmap string Document)
              (replicate 250 (page_chunk "A" 1)) [])
    as (calls & batches & Hcalls & Hwrites & _ & _ & Hlen); [by vm_compute|].
  exists calls, batches. destruct Hlen as [Hn Hsizes]; [by vm_compute|].
  exact (conj Hcalls (conj Hwrites (conj Hn Hsizes))).
Defined.

(** C9.  [add_documents] deletes and modifies nothing that is stored: every
    identifier stored before the call is stored after it, with the same
    entry, and every write the call makes carries only chunks of the input
    whose identifiers were not among the stored ones.  This holds for every
    call, whether it returns or a write raises part-way. *)
Theorem add_documents_frame {S : Type} `{!VectorStore S} (s : S) documents md :
  let r := add_documents documents md s in
  (∀ x, x ∈ vs_get s →
        x ∈ vs_get (run_store r) ∧ vs_entry (run_store r) x = vs_entry s x)
  ∧ (∀ b ids c, CallAddDocuments b ids ∈ run_calls r → c ∈ b →
        c ∈ calculate_chunk_ids documents md
        ∧ ¬ already_stored (list_to_set (vs_get s)) c)
  ∧ (∀ b ids v, CallAddDocuments b ids ∈ run_calls r → v ∈ ids →
        ¬ id_in v (list_to_set (vs_get s))).
Proof.
  intros r.
  set (new_chunks := new_chunks_for (vs_get s) (calculate_chunk_ids documents md)).
  destruct (decide (new_chunks = [])) as [Hnil|Hnew].
  { unfold r. rewrite add_documents_no_new by done. simpl.
    split_and!; [done|intros b ids ? Hin..];
      by apply list_elem_of_singleton in Hin. }
  destruct (add_documents_new documents md s Hnew)
    as (batches & _ & Hcat & _ & Hrun).
  fold new_chunks in Hcat. unfold r. rewrite Hrun. simpl.
  assert (∀ b c, b ∈ batches → c ∈ b →
            c ∈ calculate_chunk_ids documents md
            ∧ ¬ already_stored (list_to_set (vs_get s)) c) as Hbatch.
  { intros b c Hb Hc. assert (c ∈ new_chunks) as Hin.
    { rewrite <-Hcat. apply elem_of_concat. eauto. }
    apply list_elem_of_filter in Hin. tauto. }
  assert (∀ b ids, CallAddDocuments b ids ∈ CallGet :: run_calls (write_batches batches s) →
            b ∈ batches ∧ chunk_ids b = inr ids) as Hcall.
  { intros b ids [?|Hin]%elem_of_cons; [done|].
    apply write_batches_calls in Hin as (b' & Hb' & ids' & Hids' & [= -> ->]).
    done. }
  split_and!.
  - intros x Hx. split; [by apply write_batches_mono|].
    apply write_batches_frame. intros b c Hb Hc Hid.
    destruct (Hbatch b c Hb Hc) as [_ Hnot]. apply Hnot.
    unfold already_stored. rewrite Hid. simpl. by apply elem_of_list_to_set.
  - intros b ids c [Hb _]%Hcall Hc. by apply (Hbatch b).
  - intros b ids v [Hb Hids]%Hcall Hv.
    apply (chunk_ids_elem _ _ _ Hids) in Hv as (c & Hc & Hid).
    destruct (Hbatch b c Hb Hc) as [_ Hnot]. unfold already_stored in Hnot.
    by rewrite Hid in Hnot.
Qed.

(** ** The permission overlay of [/api/embed] *)

Lemma embed_metadata_flags chunk :
  metadata (apply_metadata embed_metadata chunk) !! "user:editor" = Some (VBool false)
  ∧ metadata (apply_metadata embed_metadata chunk) !! "user:owner" = Some (VBool true).
Proof.
  unfold apply_metadata, embed_metadata, apply_item. simpl.
  split; by repeat (rewrite lookup_insert_eq || (rewrite lookup_insert_ne by done)).
Qed.

(** One upload, step by step: nothing happens when splitting raises, and
    otherwise the store is used as [add_documents] uses it. *)
Lemma background_upload_run {S : Type} `{!VectorStore S}
    lib documents chunk_size chunk_overlap (s : S) :
  background_upload lib documents chunk_size chunk_overlap s
  = match split_documents lib documents chunk_size chunk_overlap with
    | inl e => mkRun s [] (inl e)
    | inr chunks =>
        let r := add_documents chunks embed_metadata s in
        mkRun (run_store r) (run_calls r)
          (match run_result r with inl e => inl e | inr _ => inr () end)
    end.
Proof.
  unfold background_upload, bind_a, lift_a. cbn -[add_documents].
  destruct (split_documents lib documents chunk_size chunk_overlap)
    as [e|chunks]; cbn -[add_documents]; [done|].
  destruct (run_result (add_documents chunks embed_metadata s));
    cbn -[add_documents]; by rewrite ?app_nil_r.
Qed.

Lemma editor_filter_rejects d :
  metadata d !! "user:editor" = Some (VBool false) →
  ¬ matches_filter (Some editor_filter) d.
Proof.
  intros Hd Hm. apply Forall_cons in Hm as [Hm _]. simpl in Hm. congruence.
Qed.

Section embed.
Context {S : Type} `{!VectorStore S}.

(** What one background upload writes carries the flags, and what the
    collection holds afterwards was there before or carries them. *)
Lemma background_upload_flags lib documents chunk_size chunk_overlap (s : S) :
  let r := background_upload lib documents chunk_size chunk_overlap s in
  (∀ b ids d, CallAddDocuments b ids ∈ run_calls r → d ∈ b →
     metadata d !! "user:editor" = Some (VBool false)
     ∧ metadata d !! "user:owner" = Some (VBool true))
  ∧ (∀ x d, vs_entry (run_store r) x = Some d →
       vs_entry s x = Some d
       ∨ metadata d !! "user:editor" = Some (VBool false)).
Proof.
  intros r. unfold r. rewrite background_upload_run.
  destruct (split_documents lib documents chunk_size chunk_overlap)
    as [e|chunks]; cbn -[add_documents].
  { split; [by intros ??? ?%elem_of_nil|by left]. }
  assert (∀ c, c ∈ calculate_chunk_ids chunks embed_metadata →
            metadata c !! "user:editor" = Some (VBool false)
            ∧ metadata c !! "user:owner" = Some (VBool true)) as Hflags.
  { intros c (_ & c0 & id & ->)%calculate_chunk_ids_elem.
    apply embed_metadata_flags. }
  set (new_chunks := new_chunks_for (vs_get s)
                       (calculate_chunk_ids chunks embed_metadata)).
  assert (∀ c, c ∈ new_chunks → c ∈ calculate_chunk_ids chunks embed_metadata)
    as Hsub by (by intros c [_ ?]%list_elem_of_filter).
  destruct (decide (new_chunks = [])) as [Hnil|Hnew].
  { rewrite add_documents_no_new by done. simpl. split; [|by left].
    by intros ??? ?%list_elem_of_singleton. }
  destruct (add_documents_new chunks embed_metadata s Hnew)
    as (batches & _ & Hcat & _ & Hrun).
  fold new_chunks in Hcat. rewrite Hrun. simpl.
  assert (∀ b d, b ∈ batches → d ∈ b → d ∈ new_chunks) as Hin.
  { intros b d Hb Hd. rewrite <-Hcat. apply elem_of_concat. eauto. }
  split.
  - intros b ids d [?|Hcall]%elem_of_cons Hd; [done|].
    apply write_batches_calls in Hcall as (b' & Hb' & ids' & _ & [= -> ->]).
    eauto.
  - intros x d Hd.
    apply write_batches_entry in Hd as [?|(b & Hb & Hdb & _)]; [by left|right].
    apply Hflags; eauto.
Qed.

Lemma embed_runs_editor_entries lib requests (s : S) x d :
  vs_entry (embed_runs lib requests s) x = Some d →
  matches_filter (Some editor_filter) d →
  vs_entry s x = Some d.
Proof.
  revert s. induction requests as [|[[documents chunk_size] chunk_overlap] rest IH];
    intros s Hd Hm; [done|].
  simpl in Hd. apply IH in Hd; [|done].
  destruct (background_upload_flags lib documents chunk_size chunk_overlap s)
    as [_ He].
  destruct (He x d Hd) as [?|Hf]; [done|]. by destruct (editor_filter_rejects d Hf).
Qed.

End embed.

(** C10.  Every chunk that a background upload of [/api/embed] hands to the
    store has [user:editor] false and [user:owner] true in its metadata, so
    it fails the editor filter of [/api/search] and passes the owner filter.
    After any series of uploads, every entry of the collection that passes
    the editor filter was stored, under the same identifier, before the
    first of them, and every [results_editor] that [/api/search] then
    returns consists of such entries. *)
Theorem embed_chunks_never_editor {S : Type} `{!VectorStore S}
    lib documents chunk_size chunk_overlap requests (s : S) :
  let r := background_upload lib documents chunk_size chunk_overlap s in
  let s' := embed_runs lib requests s in
  (∀ b ids d, CallAddDocuments b ids ∈ run_calls r → d ∈ b →
        metadata d !! "user:editor" = Some (VBool false)
        ∧ metadata d !! "user:owner" = Some (VBool true)
        ∧ ¬ matches_filter (Some editor_filter) d
        ∧ matches_filter (Some owner_filter) d)
  ∧ (∀ x d, vs_entry s' x = Some d →
        matches_filter (Some editor_filter) d → vs_entry s x = Some d)
  ∧ (∀ query k results_editor results_owner d,
        run_result (api_search query k s') = inr (results_editor, results_owner) →
        d ∈ results_editor → ∃ x, vs_entry s x = Some d).
Proof.
  intros r s'. split_and!.
  - intros b ids d Hcall Hd.
    destruct (background_upload_flags lib documents chunk_size chunk_overlap s)
      as [Hw _].
    destruct (Hw b ids d Hcall Hd) as [H1 H2].
    split_and!; [done..|by apply editor_filter_rejects|].
    by repeat constructor.
  - apply embed_runs_editor_entries.
  - intros query k results_editor results_owner d Hres Hd.
    unfold api_search, search, bind_a, store_similarity_search, ret_a in Hres.
    simpl in Hres.
    destruct (vs_similarity_search s' query k (Some editor_filter))
      as [re|] eqn:Hre; simpl in Hres; [|done].
    destruct (vs_similarity_search s' query k (Some owner_filter))
      as [ro|] eqn:Hro; simpl in Hres; [|done].
    injection Hres as -> ->.
    destruct (vs_search_sound _ _ _ _ _ d Hre Hd) as [Hm [x Hx]].
    exists x. by eapply embed_runs_editor_entries.
Qed.

(** ** Splitting *)

(** C6, as the code has it.  [split_documents] checks nothing itself: it
    hands [chunk_size] and [chunk_overlap] unchanged to the constructor of
    the library's splitter and returns what the library's [split_documents]
    returns.  So a configuration fails before any chunk is produced exactly
    when the library's constructor rejects it, and then with the library's
    exception, whatever the documents; the background upload then stops
    there, without a call on the store. *)
Theorem split_documents_delegates lib documents chunk_size chunk_overlap :
  split_documents lib documents chunk_size chunk_overlap
  = match RecursiveCharacterTextSplitter lib chunk_size chunk_overlap with
    | inl e => inl e
    | inr text_splitter =>
        text_splitter_split_documents lib text_splitter documents
    end
  ∧ (∀ e, RecursiveCharacterTextSplitter lib chunk_size chunk_overlap = inl e →
          split_documents lib documents chunk_size chunk_overlap = inl e)
  ∧ (∀ (S : Type) (store : VectorStore S) (s : S) e,
        RecursiveCharacterTextSplitter lib chunk_size chunk_overlap = inl e →
        let r := background_upload lib documents chunk_size chunk_overlap s in
        run_result r = inl e ∧ run_calls r = [] ∧ run_store r = s).
Proof.
  unfold split_documents. split_and!; [done|by intros e ->|].
  intros S store s e He. rewrite background_upload_run. unfold split_documents.
  by rewrite He.
Qed.

Lemma split_documents_delegates_witness :
  split_documents whole_document_splitter [short_document] 400 401
  = inl (ValueError "Got a larger chunk overlap than chunk size").
Proof.
  exact (proj1 (proj2 (split_documents_delegates whole_document_splitter
                         [short_document] 400 401)) _ eq_refl).
Defined.

(** C6, as stated, fails: with [chunk_overlap=400, chunk_size=400] nothing
    in [split_documents] raises, and a library that rejects only an overlap
    larger than the size returns the chunks. *)
Lemma split_documents_accepts_equal_overlap :
  split_documents whole_document_splitter [] 400 400 = inr []
  ∧ split_documents whole_document_splitter [short_document] 400 400
    = inr [short_document].
Proof. split; reflexivity. Qed.

(** ** Search *)

(** C7, as the code has it.  [search] does not look at [k]: for every query,
    [k] and filter it makes exactly one [similarity_search] call on the
    store, with the three arguments unchanged, and returns what that call
    returns or raises what it raises. *)
Theorem search_forwards {S : Type} `{!VectorStore S} (s : S) query k filter :
  let r := search query k filter s in
  run_calls r = [CallSimilaritySearch query k filter]
  ∧ run_store r = s
  ∧ run_result r
    = match vs_similarity_search s query k filter with
      | Some results => inr results
      | None => inl (LibraryError "similarity_search")
      end.
Proof.
  unfold search, bind_a, store_similarity_search, ret_a. simpl.
  by destruct (vs_similarity_search s query k filter).
Qed.

(** C7, as stated, fails: with [k=0] and with [k=-1] the store is
    contacted. *)
Lemma search_nonpositive_k_contacts_store :
  run_calls (search "rules" 0 None (∅ : gmap string Document))
    = [CallSimilaritySearch "rules" 0 None]
  ∧ run_calls (search "rules" (-1) (Some owner_filter) (∅ : gmap string Document))
    = [CallSimilaritySearch "rules" (-1) (Some owner_filter)].
Proof. split; reflexivity. Qed.

(** ** Connection *)

(** C8.  A [connect] call leaves the instance with the handle it returns.
    On an instance that has a handle it returns that handle and changes
    neither the instance nor the process, so no store object is built; on
    an instance without one it builds exactly one store object, for
    [index_name] under [CHROMA_PATH].  Every later [connect] on the
    instance, whatever its arguments and whatever was built in the process
    meanwhile, returns the same handle and builds nothing. *)
Theorem connect_idempotent self index_name embedding p :
  let '(h, self', p') := connect self index_name embedding p in
  vector_store self' = Some h
  ∧ (∀ h0, vector_store self = Some h0 → h = h0 ∧ self' = self ∧ p' = p)
  ∧ (vector_store self = None →
     h = length p ∧ p' = p ++ [mkChroma CHROMA_PATH embedding index_name])
  ∧ (p' ≠ p ↔ vector_store self = None)
  ∧ (∀ index_name' embedding' p'',
       connect self' index_name' embedding' p'' = (h, self', p'')).
Proof.
  unfold connect. destruct self as [[h0|]]; simpl.
  - split_and!; try done. by intros ? [= ->].
  - split_and!; try done.
    split; [done|]. intros _ Heq.
    apply (f_equal length) in Heq. rewrite length_app in Heq. simpl in Heq. lia.
Qed.

(** * Further properties of the code *)

(** ** What [calculate_chunk_ids] leaves in a chunk *)

Lemma apply_item_lookup item chunk key :
  metadata (apply_item item chunk) !! key
  = match last_assigned item key with
    | Some v => Some v
    | None => metadata chunk !! key
    end.
Proof.
  unfold apply_item. revert chunk.
  induction item as [|[k v] item IH]; intros chunk; [done|].
  simpl. rewrite IH. destruct (last_assigned item key); [done|].
  simpl. rewrite lookup_insert. by case_decide.
Qed.

Lemma last_assigned_app items1 items2 key :
  last_assigned (items1 ++ items2) key
  = match last_assigned items2 key with
    | Some v => Some v
    | None => last_assigned items1 key
    end.
Proof.
  induction items1 as [|[k v] items1 IH]; simpl.
  - by destruct (last_assigned items2 key).
  - rewrite IH. by destruct (last_assigned items2 key).
Qed.

Lemma apply_metadata_lookup md chunk key :
  metadata (apply_metadata md chunk) !! key
  = match last_assigned (concat md) key with
    | Some v => Some v
    | None => metadata chunk !! key
    end.
Proof.
  assert (metadata (foldl (λ c item, apply_item item c) chunk md) !! key
          = match last_assigned (concat md) key with
            | Some v => Some v
            | None => metadata chunk !! key
            end) as Hfold.
  { revert chunk. induction md as [|item md IH]; intros chunk; [done|].
    simpl. rewrite IH, last_assigned_app, apply_item_lookup.
    by destruct (last_assigned (concat md) key). }
  by destruct md.
Qed.

Lemma apply_metadata_page_content md chunk :
  page_content (apply_metadata md chunk) = page_content chunk.
Proof.
  assert (∀ item c, page_content (apply_item item c) = page_content c) as Hitem.
  { unfold apply_item. induction item as [|[k v] item IH]; intros c; [done|].
    simpl. by rewrite IH. }
  assert (page_content (foldl (λ c item, apply_item item c) chunk md)
          = page_content chunk) as Hfold.
  { revert chunk. induction md as [|item md IH]; intros chunk; [done|].
    simpl. by rewrite IH, Hitem. }
  by destruct md.
Qed.

Lemma last_assigned_None items key :
  last_assigned items key = None ↔ key ∉ items.*1.
Proof.
  induction items as [|[k v] items IH]; simpl.
  - split; [intros _; apply not_elem_of_nil|done].
  - rewrite not_elem_of_cons, <-IH.
    destruct (last_assigned items key) as [w|].
    + split; [done|]. by intros [_ ?].
    + case_decide as Hk.
      * split; [done|]. intros [Hne _]. by destruct Hne.
      * split; [intros _; split; [congruence|done]|done].
Qed.

Lemma overlay_keys_concat md : overlay_keys md = (concat md).*1.
Proof.
  induction md as [|item md IH]; [done|].
  change (overlay_keys (item :: md)) with (item.*1 ++ overlay_keys md).
  simpl. by rewrite fmap_app, IH.
Qed.

Lemma document_eq (c1 c2 : Document) :
  page_content c1 = page_content c2 → metadata c1 = metadata c2 → c1 = c2.
Proof. destruct c1, c2; simpl. by intros -> ->. Qed.

(** X1.  [calculate_chunk_ids] returns as many chunks as it is given, and
    the chunk at each position keeps its text; each metadata key holds the
    value the overlay assigned to it last, if the overlay assigns it, else
    the computed identifier for ["id"], and else what the input chunk had
    (or nothing, if it had nothing). *)
Theorem calculate_chunk_ids_metadata chunks md i chunk :
  chunks !! i = Some chunk →
  length (calculate_chunk_ids chunks md) = length chunks
  ∧ ∃ chunk',
      calculate_chunk_ids chunks md !! i = Some chunk'
      ∧ page_content chunk' = page_content chunk
      ∧ ∀ key,
          metadata chunk' !! key
          = match last_assigned (concat md) key with
            | Some v => Some v
            | None =>
                if decide (key = "id") then Some (computed_id chunks i chunk)
                else metadata chunk !! key
            end.
Proof.
  intros Hi. split; [apply calculate_chunk_ids_from_length|].
  exists (apply_metadata md (set_item "id" (computed_id chunks i chunk) chunk)).
  split_and!.
  - unfold calculate_chunk_ids. rewrite calculate_chunk_ids_from_zip.
    apply lookup_zip_with_Some.
    exists chunk, (current_page_id chunk,
                   spec_index (current_page_id <$> chunks) i).
    split_and!; [done..|].
    apply index_pairs_spec_index. by rewrite list_lookup_fmap, Hi.
  - by rewrite apply_metadata_page_content.
  - intros key. rewrite apply_metadata_lookup.
    destruct (last_assigned (concat md) key); [done|].
    simpl. rewrite lookup_insert. by repeat case_decide.
Qed.

Lemma calculate_chunk_ids_metadata_witness :
  ∃ chunk',
    calculate_chunk_ids reentry_chunks embed_metadata !! 1 = Some chunk'
    ∧ metadata chunk' !! "id" = Some (VStr "A:1:1")
    ∧ metadata chunk' !! "source" = Some (VStr "A")
    ∧ metadata chunk' !! "user:root" = Some (VBool true).
Proof.
  destruct (calculate_chunk_ids_metadata reentry_chunks embed_metadata 1
              (page_chunk "A" 1) eq_refl) as (_ & chunk' & Hc & _ & Hkeys).
  exists chunk'. split; [exact Hc|].
  rewrite !Hkeys. by vm_compute.
Defined.

(** X2.  When the overlay assigns the key ["id"], its value replaces the
    computed identifier on every chunk: all chunks of the result carry the
    same identifier, so two or more chunks are never distinctly identified,
    and if that identifier is already stored [add_documents] adds nothing,
    whatever the chunks are. *)
Theorem overlay_id_overrides {S : Type} `{!VectorStore S} (s : S) chunks md v :
  last_assigned (concat md) "id" = Some v →
  (∀ c, c ∈ calculate_chunk_ids chunks md → chunk_id c = Some v)
  ∧ (2 ≤ length chunks → ¬ NoDup (chunk_id <$> calculate_chunk_ids chunks md))
  ∧ (∀ x, v = VStr x → x ∈ vs_get s →
       add_documents chunks md s
       = mkRun s [CallGet] (inr (Some no_new_documents))).
Proof.
  intros Hv.
  assert (∀ c, c ∈ calculate_chunk_ids chunks md → chunk_id c = Some v) as Hall.
  { intros c (_ & c0 & id & ->)%calculate_chunk_ids_elem.
    unfold chunk_id. by rewrite apply_metadata_lookup, Hv. }
  split_and!; [done| |].
  - intros Hlen Hnd.
    pose proof (calculate_chunk_ids_from_length None 0 chunks md) as Hl.
    fold (calculate_chunk_ids chunks md) in Hl.
    destruct (calculate_chunk_ids chunks md) as [|c1 [|c2 l]]; simpl in Hl; try lia.
    rewrite !fmap_cons, (Hall c1), (Hall c2) in Hnd
      by (rewrite !elem_of_cons; auto).
    apply NoDup_cons in Hnd as [Hnot _]. apply Hnot. by left.
  - intros x -> Hx. apply add_documents_no_new, filter_none.
    intros c Hc Hnot. apply Hnot. unfold already_stored.
    rewrite (Hall c Hc). simpl. by apply elem_of_list_to_set.
Qed.

Lemma overlay_id_overrides_witness :
  add_documents reentry_chunks [[("id", VStr "A:1:0")]]
    ({["A:1:0" := page_chunk "A" 1]} : gmap string Document)
  = mkRun {["A:1:0" := page_chunk "A" 1]} [CallGet] (inr (Some no_new_documents)).
Proof.
  destruct (overlay_id_overrides
              ({["A:1:0" := page_chunk "A" 1]} : gmap string Document)
              reentry_chunks [[("id", VStr "A:1:0")]] (VStr "A:1:0") eq_refl)
    as (_ & _ & Hadd).
  apply (Hadd "A:1:0" eq_refl). by_evaluation.
Defined.

(** ** Runs of one page and joins of sequences *)

Lemma index_pairs_uniform p n page_ids :
  (∀ q, q ∈ page_ids → q = p) →
  index_pairs (Some p) n page_ids
  = (λ i, (p, S n + i)) <$> seq 0 (length page_ids).
Proof.
  revert n. induction page_ids as [|q l IH]; intros n Hall; [done|].
  assert (q = p) as -> by (apply Hall; by left).
  cbn [index_pairs length seq fmap list_fmap]. rewrite decide_True by done.
  rewrite IH by (intros; apply Hall; by right).
  rewrite <-fmap_S_seq, <-list_fmap_compose. f_equal; [f_equal; lia|].
  apply list_fmap_ext. intros _ i _. simpl. f_equal. lia.
Qed.

(** X3.  When all chunks show the same [source:page], in particular when
    none of them has a [source] or a [page], which reads as [None:None],
    the identifiers are that string followed by 0, 1, 2, ... in order (for
    an overlay without an ["id"] key). *)
Theorem single_page_indices chunks md p :
  (∀ c, c ∈ chunks → current_page_id c = p) →
  "id" ∉ overlay_keys md →
  chunk_id <$> calculate_chunk_ids chunks md
    = (λ i : nat, Some (VStr (p +:+ ":" +:+ pretty i))) <$> seq 0 (length chunks)
  ∧ ∀ c, metadata c !! "source" = None → metadata c !! "page" = None →
      current_page_id c = "None:None".
Proof.
  intros Hall Hid. split.
  - unfold calculate_chunk_ids. rewrite calculate_chunk_ids_from_ids by done.
    destruct chunks as [|c chunks]; [done|].
    cbn [fmap list_fmap index_pairs length seq]. rewrite decide_False by done.
    rewrite (Hall c) by by left. f_equal.
    fold (fmap (M:=list) current_page_id chunks).
    rewrite (index_pairs_uniform p).
    + rewrite length_fmap, <-fmap_S_seq, <-!list_fmap_compose.
      by apply list_fmap_ext.
    + intros q (c' & -> & Hc')%list_elem_of_fmap. apply Hall. by right.
  - intros c Hs Hp. unfold current_page_id, dict_get. by rewrite Hs, Hp.
Qed.

Lemma single_page_indices_witness :
  chunk_id <$> calculate_chunk_ids
    [mkDocument "a" ∅; mkDocument "b" ∅; mkDocument "c" ∅] []
  = [Some (VStr "None:None:0"); Some (VStr "None:None:1");
     Some (VStr "None:None:2")].
Proof.
  destruct (single_page_indices
              [mkDocument "a" ∅; mkDocument "b" ∅; mkDocument "c" ∅] []
              "None:None") as [Hids _]; [|by_evaluation|exact Hids].
  intros c Hc. repeat (apply elem_of_cons in Hc as [->|Hc]; [reflexivity|]).
  by apply elem_of_nil in Hc.
Defined.

Lemma apply_metadata_current_page_id md id chunk :
  "source" ∉ overlay_keys md → "page" ∉ overlay_keys md →
  current_page_id (apply_metadata md (set_item "id" id chunk))
  = current_page_id chunk.
Proof.
  intros Hs Hp. unfold current_page_id, dict_get.
  rewrite !apply_metadata_lookup_ne by done. simpl.
  by rewrite !lookup_insert_ne by done.
Qed.

Lemma apply_metadata_again md id chunk :
  let chunk' := apply_metadata md (set_item "id" id chunk) in
  apply_metadata md (set_item "id" id chunk') = chunk'.
Proof.
  intros chunk'. apply document_eq.
  - unfold chunk'. rewrite !apply_metadata_page_content. simpl.
    by rewrite apply_metadata_page_content.
  - apply map_eq. intros key. unfold chunk'. rewrite !apply_metadata_lookup.
    destruct (last_assigned (concat md) key) as [w|] eqn:Hkey; [done|].
    simpl. rewrite !lookup_insert. case_decide; [done|].
    rewrite apply_metadata_lookup, Hkey. simpl. by rewrite lookup_insert_ne.
Qed.

Lemma calculate_chunk_ids_from_again last n chunks md :
  "source" ∉ overlay_keys md → "page" ∉ overlay_keys md →
  calculate_chunk_ids_from last n (calculate_chunk_ids_from last n chunks md) md
  = calculate_chunk_ids_from last n chunks md.
Proof.
  intros Hs Hp. revert last n.
  induction chunks as [|c chunks IH]; intros last n; [done|].
  cbn [calculate_chunk_ids_from].
  rewrite apply_metadata_current_page_id by done.
  f_equal; [|apply IH]. apply (apply_metadata_again md _ c).
Qed.

(** X4.  Running [calculate_chunk_ids] on its own result, with the same
    overlay, changes nothing, provided the overlay assigns neither
    [source] nor [page]: chunks that were identified once keep their
    identifiers and metadata when they are identified again. *)
Theorem calculate_chunk_ids_again chunks md :
  "source" ∉ overlay_keys md → "page" ∉ overlay_keys md →
  calculate_chunk_ids (calculate_chunk_ids chunks md) md
  = calculate_chunk_ids chunks md.
Proof. apply calculate_chunk_ids_from_again. Qed.

Lemma calculate_chunk_ids_again_witness :
  calculate_chunk_ids (calculate_chunk_ids reentry_chunks embed_metadata)
    embed_metadata
  = calculate_chunk_ids reentry_chunks embed_metadata.
Proof. apply calculate_chunk_ids_again; by_evaluation. Defined.

Lemma calculate_chunk_ids_from_restart last n chunks md :
  (∀ p, last = Some p → head (current_page_id <$> chunks) ≠ Some p) →
  calculate_chunk_ids_from last n chunks md
  = calculate_chunk_ids_from None 0 chunks md.
Proof.
  intros Hne. destruct chunks as [|c chunks]; [done|].
  cbn [calculate_chunk_ids_from]. rewrite (decide_False (P:=_ = None)) by done.
  rewrite decide_False; [done|].
  intros <-. by apply (Hne (current_page_id c)).
Qed.

Lemma calculate_chunk_ids_from_app last_id n chunks1 chunks2 md :
  (∀ p, last (current_page_id <$> chunks1) = Some p →
        head (current_page_id <$> chunks2) ≠ Some p) →
  (chunks1 = [] →
   ∀ p, last_id = Some p → head (current_page_id <$> chunks2) ≠ Some p) →
  calculate_chunk_ids_from last_id n (chunks1 ++ chunks2) md
  = calculate_chunk_ids_from last_id n chunks1 md
    ++ calculate_chunk_ids_from None 0 chunks2 md.
Proof.
  revert last_id n.
  induction chunks1 as [|c chunks1 IH]; intros last_id n Hne Hnil.
  - apply calculate_chunk_ids_from_restart. by apply Hnil.
  - simpl. f_equal. apply IH.
    + intros p Hp. apply Hne. destruct chunks1; [done|].
      by rewrite !fmap_cons, last_cons_cons, <-fmap_cons.
    + intros -> p [= <-]. by apply Hne.
Qed.

(** X5.  Identification of a sequence made of two parts is the
    identification of the first part followed by that of the second, when
    the first part does not end on the [source:page] the second begins
    with: documents can be identified file by file, or all at once, with
    the same result. *)
Theorem calculate_chunk_ids_app chunks1 chunks2 md :
  (∀ p, last (current_page_id <$> chunks1) = Some p →
        head (current_page_id <$> chunks2) ≠ Some p) →
  calculate_chunk_ids (chunks1 ++ chunks2) md
  = calculate_chunk_ids chunks1 md ++ calculate_chunk_ids chunks2 md.
Proof.
  intros Hne. by apply calculate_chunk_ids_from_app.
Qed.

Lemma calculate_chunk_ids_app_witness :
  calculate_chunk_ids ([page_chunk "A" 1; page_chunk "A" 2] ++ [page_chunk "B" 1]) []
  = calculate_chunk_ids [page_chunk "A" 1; page_chunk "A" 2] []
    ++ calculate_chunk_ids [page_chunk "B" 1] [].
Proof.
  apply calculate_chunk_ids_app. intros p Hp. vm_compute in Hp.
  injection Hp as <-. by vm_compute.
Defined.

(** ** More on batches *)

(** X6.  For a positive size, [batch] yields [(len + n - 1) // n] batches;
    batch number [i] is the slice of the list from position [i * n], every
    batch but the last has exactly [n] elements and the last has the
    remaining ones, at least one. *)
Theorem batch_sizes {A} (l : list A) (n : Z) :
  (0 < n)%Z →
  ∃ batches,
    batch l n = inr batches
    ∧ length batches = (length l + Z.to_nat n - 1) `div` Z.to_nat n
    ∧ ∀ i b, batches !! i = Some b →
        b = take (Z.to_nat n) (drop (i * Z.to_nat n) l)
        ∧ (S i < length batches → length b = Z.to_nat n)
        ∧ (S i = length batches →
           length b = length l - i * Z.to_nat n ∧ 0 < length b ≤ Z.to_nat n).
Proof.
  intros Hn. unfold batch. rewrite !decide_False by lia. eexists. split; [done|].
  set (m := Z.to_nat n). assert (0 < m) as Hm by lia.
  destruct (py_range_count (length l) m Hm) as [Hle Hlt].
  unfold py_range. set (k := (length l + m - 1) `div` m) in *.
  rewrite !length_fmap, length_seq. split; [done|].
  intros i b Hb. rewrite <-list_fmap_compose, list_lookup_fmap in Hb.
  destruct (seq 0 k !! i) as [q|] eqn:Hq; [|done].
  apply lookup_seq in Hq as [-> Hi]. simpl in Hb. injection Hb as <-.
  unfold slice. split; [done|]. rewrite length_take, length_drop. split.
  - intros Hlast. nia.
  - intros Hlast. nia.
Qed.

Lemma batch_sizes_witness :
  ∃ batches,
    batch (replicate 250 true) 100 = inr batches ∧ length batches = 3.
Proof.
  destruct (batch_sizes (replicate 250 true) 100) as (batches & Hb & Hlen & _);
    [lia|].
  exists batches. split; [exact Hb|]. rewrite Hlen. by vm_compute.
Defined.

(** X7.  The edge cases of [batch]: a size of zero raises [ValueError] for
    every list, the empty one included; a negative size yields no batch at
    all, so that the elements of the list are in no batch; a positive size
    yields no batch only for the empty list, and the whole list as the one
    batch when the list is not longer than the size. *)
Theorem batch_edge_cases {A} (l : list A) (n : Z) :
  (n = 0%Z → batch l n = inl (ValueError "range() arg 3 must not be zero"))
  ∧ ((n < 0)%Z → batch l n = inr [])
  ∧ ((0 < n)%Z → batch l n = inr [] ↔ l = [])
  ∧ ((0 < n)%Z → l ≠ [] → length l ≤ Z.to_nat n → batch l n = inr [l]).
Proof.
  split_and!.
  - intros ->. done.
  - intros Hn. unfold batch. by rewrite decide_False, decide_True by lia.
  - intros Hn. destruct (batch_partition l n Hn) as (bs & Hb & Hcat & Hlen).
    rewrite Hb. split.
    + intros [= ->]. by rewrite <-Hcat.
    + intros ->. f_equal. destruct bs as [|b bs]; [done|].
      apply Forall_cons in Hlen as [Hb0 _]. simpl in Hcat.
      apply app_eq_nil in Hcat as [-> _]. simpl in Hb0. lia.
  - intros Hn Hl Hlen.
    destruct (batch_partition l n Hn) as (bs & Hb & Hcat & Hsz).
    rewrite Hb. f_equal.
    destruct bs as [|b [|b' bs]].
    + simpl in Hcat. by subst.
    + simpl in Hcat. rewrite app_nil_r in Hcat. by subst.
    + exfalso. unfold batch in Hb. rewrite !decide_False in Hb by lia.
      injection Hb as Hb. apply (f_equal length) in Hb.
      unfold py_range in Hb. rewrite !length_fmap, length_seq in Hb. simpl in Hb.
      assert (0 < length l) by (destruct l; [done|simpl; lia]).
      assert ((length l + Z.to_nat n - 1) `div` Z.to_nat n < 2); [|lia].
      apply Nat.Div0.div_lt_upper_bound. lia.
Qed.

(** ** More on ingestion *)

Lemma chunk_ids_defined b :
  (∀ c, c ∈ b → is_Some (chunk_id c)) → ∃ ids, chunk_ids b = inr ids.
Proof.
  induction b as [|c b IH]; intros Hids; simpl; [by eexists|].
  destruct (Hids c) as [v ->]; [by left|].
  destruct IH as [ids ->]; [intros; apply Hids; by right|]. by eexists.
Qed.

(** A run of the writes that does not return stopped at the first write the
    store refused: the batches before it were written and none after it was
    tried. *)
Lemma write_batches_failed {S : Type} `{!VectorStore S} batches (s : S) :
  (∀ b c, b ∈ batches → c ∈ b → is_Some (chunk_id c)) →
  ¬ succeeded (write_batches batches s) →
  ∃ written failed rest ids,
    batches = written ++ failed :: rest
    ∧ succeeded (write_batches written s)
    ∧ chunk_ids failed = inr ids
    ∧ vs_add_documents (run_store (write_batches written s)) failed ids = None
    ∧ run_store (write_batches batches s) = run_store (write_batches written s)
    ∧ run_calls (write_batches batches s)
      = run_calls (write_batches written s) ++ [CallAddDocuments failed ids]
    ∧ run_result (write_batches batches s) = inl (LibraryError "add_documents").
Proof.
  revert s. induction batches as [|b batches IH]; intros s Hids Hfail.
  { by destruct Hfail. }
  destruct (chunk_ids_defined b) as [ids Hb].
  { intros c Hc. apply (Hids b c); [by left|done]. }
  rewrite write_batches_cons, Hb in Hfail |- *.
  destruct (vs_add_documents s b ids) as [s'|] eqn:Hadd.
  - destruct (IH s') as (written & failed & rest & ids' & -> & Hok & Hf & Hadd'
                          & Hstore & Hcalls & Hres).
    { intros b' c Hb' Hc. apply (Hids b' c); [by right|done]. }
    { done. }
    exists (b :: written), failed, rest, ids'.
    rewrite write_batches_cons, Hb, Hadd. simpl in *.
    rewrite Hstore, Hcalls, Hres. by split_and!.
  - exists [], b, batches, ids. by split_and!.
Qed.

Lemma add_documents_when_run {S : Type} `{!VectorStore S}
    answers (s : S) documents md :
  add_documents_when answers documents md s
  = if answers then add_documents documents md s
    else mkRun s [CallGet] (inl (LibraryError "get")).
Proof. by destruct answers. Qed.

(** The chunks [add_documents] writes all have an identifier. *)
Lemma batches_have_ids chunks md existing_items batches :
  concat batches = new_chunks_for existing_items (calculate_chunk_ids chunks md) →
  ∀ b c, b ∈ batches → c ∈ b → is_Some (chunk_id c).
Proof.
  intros Hcat b c Hb Hc.
  assert (c ∈ new_chunks_for existing_items (calculate_chunk_ids chunks md))
    as [_ Hin]%list_elem_of_filter.
  { rewrite <-Hcat. apply elem_of_concat. eauto. }
  by apply calculate_chunk_ids_elem in Hin as [? _].
Qed.

(** X8.  [add_documents] ends in one of four ways.  When the [get] call
    raises, that exception leaves the method, after no other call and with
    the collection untouched.  When it returns and nothing is new, the
    method makes no further call, leaves the collection alone and returns
    the dictionary.  When something is new it makes at least one write and
    returns [None], or raises what the store's [add_documents] raised.  It
    never raises a [KeyError] for a missing ["id"] nor the [ValueError] of
    a zero batch size. *)
Theorem add_documents_outcome {S : Type} `{!VectorStore S} answers (s : S)
    documents md :
  let new_chunks := new_chunks_for (vs_get s) (calculate_chunk_ids documents md) in
  let r := add_documents_when answers documents md s in
  (answers = false → r = mkRun s [CallGet] (inl (LibraryError "get")))
  ∧ (answers = true → new_chunks = [] →
     r = mkRun s [CallGet] (inr (Some no_new_documents)))
  ∧ (answers = true → new_chunks ≠ [] →
     (run_result r = inr None
      ∨ run_result r = inl (LibraryError "add_documents"))
     ∧ ∃ b ids calls, run_calls r = CallGet :: CallAddDocuments b ids :: calls)
  ∧ (∀ key, run_result r ≠ inl (KeyError key))
  ∧ (∀ msg, run_result r ≠ inl (ValueError msg)).
Proof.
  intros new_chunks r.
  assert (new_chunks ≠ [] →
          let r := add_documents documents md s in
          (run_result r = inr None
           ∨ run_result r = inl (LibraryError "add_documents"))
          ∧ ∃ b ids calls, run_calls r = CallGet :: CallAddDocuments b ids :: calls)
    as Hnew.
  { intros Hne.
    destruct (add_documents_new documents md s Hne)
      as (batches & Hb & Hcat & Hlen & Hrun).
    cbv zeta. rewrite Hrun. simpl.
    pose proof (batches_have_ids _ _ _ _ Hcat) as Hids.
    split.
    - destruct (run_result (write_batches batches s)) as [e|[]] eqn:Hres;
        [|by left]. right.
      destruct (write_batches_failed batches s Hids) as (?&?&?&?&_&_&_&_&_&_&He).
      { unfold succeeded. rewrite Hres. tauto. }
      congruence.
    - destruct batches as [|b batches].
      { simpl in Hcat. fold new_chunks in Hcat. by destruct Hne. }
      destruct (chunk_ids_defined b) as [ids Hbids].
      { intros c Hc. apply (Hids b c); [by left|done]. }
      rewrite write_batches_cons, Hbids.
      destruct (vs_add_documents s b ids); simpl; eauto. }
  unfold r. rewrite add_documents_when_run. destruct answers.
  - split_and!; [done|intros _; by apply add_documents_no_new|by intros _|..];
      intros x Hx; destruct (decide (new_chunks = [])) as [Hnil|Hne];
      try (by rewrite add_documents_no_new in Hx);
      destruct (Hnew Hne) as [[Hr|Hr] _]; congruence.
  - by split_and!.
Qed.

(** X9.  When [add_documents] raises, either the [get] call raised, and
    then nothing was written, or a write raised.  In that case the batches
    before the refused one have been written and stay written, with every
    identifier of theirs stored, the refused batch is the last call made
    and has left the collection as it was, and no later batch is tried. *)
Theorem add_documents_partial_failure {S : Type} `{!VectorStore S} answers
    (s : S) documents md :
  let new_chunks := new_chunks_for (vs_get s) (calculate_chunk_ids documents md) in
  let r := add_documents_when answers documents md s in
  ¬ succeeded r →
  (answers = false ∧ r = mkRun s [CallGet] (inl (LibraryError "get")))
  ∨ (answers = true ∧
     ∃ written failed rest ids calls,
       batch new_chunks 100 = inr (written ++ failed :: rest)
       ∧ run_result r = inl (LibraryError "add_documents")
       ∧ run_calls r = CallGet :: calls ++ [CallAddDocuments failed ids]
       ∧ Forall2 writes_batch calls written
       ∧ chunk_ids failed = inr ids
       ∧ vs_add_documents (run_store r) failed ids = None
       ∧ ∀ c, c ∈ concat written →
           ∃ x, chunk_id c = Some (VStr x) ∧ x ∈ vs_get (run_store r)).
Proof.
  intros new_chunks r. unfold r. rewrite add_documents_when_run.
  destruct answers; [|by left]. intros Hfail. right. split; [done|].
  destruct (decide (new_chunks = [])) as [Hnil|Hne].
  { rewrite add_documents_no_new in Hfail by done. by destruct Hfail. }
  destruct (add_documents_new documents md s Hne)
    as (batches & Hb & Hcat & Hlen & Hrun).
  pose proof (batches_have_ids _ _ _ _ Hcat) as Hids.
  fold new_chunks in Hb, Hcat. rewrite Hrun in Hfail |- *. simpl in *.
  destruct (write_batches_failed batches s Hids)
    as (written & failed & rest & ids & -> & Hok & Hf & Hadd & Hstore & Hcalls
        & Hres).
  { unfold succeeded in *. by destruct (run_result (write_batches _ s)). }
  destruct (write_batches_succeeded written s Hok) as [Hw Hst].
  exists written, failed, rest, ids, (run_calls (write_batches written s)).
  rewrite Hres, Hcalls, Hstore. split_and!; try done.
  intros c (b & Hbin & Hc)%elem_of_concat. by apply (Hst b).
Qed.

(** 250 new chunks against the quota of 150 entries: the first batch of 100
    is written, the second is refused, the third is not tried. *)
Lemma add_documents_partial_failure_witness :
  let r := add_documents_when true (replicate 250 (page_chunk "A" 1)) []
             (mkLimitedStore ∅) in
  ∃ (written : list (list Document)) failed (rest : list (list Document))
    ids calls,
    length written = 1 ∧ length rest = 1
    ∧ run_calls r = CallGet :: calls ++ [CallAddDocuments failed ids]
    ∧ Forall2 writes_batch calls written
    ∧ length (vs_get (run_store r)) = 100.
Proof.
  intros r.
  destruct (add_documents_partial_failure true (mkLimitedStore ∅)
              (replicate 250 (page_chunk "A" 1)) [])
    as [[[=] _]|(_ & written & failed & rest & ids & calls & Hb & _ & Hcalls
                 & Hw & _)]; [by vm_compute|].
  fold r in Hcalls. exists written, failed, rest, ids, calls.
  assert (length calls = 1) as Hlen.
  { apply (f_equal (length (A:=StoreCall))) in Hcalls. rewrite length_cons, length_app in Hcalls.
    assert (length (run_calls r) = 3) as Hr by (by vm_compute).
    rewrite Hr in Hcalls. simpl in Hcalls. lia. }
  assert (length written = 1) as Hwritten.
  { by rewrite <-(Forall2_length _ _ _ Hw). }
  split_and!; [done| |done|done|by vm_compute].
  destruct (batch_250 (new_chunks_for (vs_get (mkLimitedStore ∅))
               (calculate_chunk_ids (replicate 250 (page_chunk "A" 1)) [])))
    as [Hthree _]; [by vm_compute|].
  rewrite Hthree in Hb. injection Hb as Hb. apply (f_equal (length (A:=list Document))) in Hb.
  rewrite length_app in Hb. simpl in Hb. lia.
Defined.

(** X10.  After a call of [add_documents] that returned, every chunk of the
    input has a string identifier that is stored, and the entry stored
    under it is the one that was there before the call or, when there was
    none, a chunk of the input with that identifier. *)
Theorem add_documents_stores_all {S : Type} `{!VectorStore S} (s : S) documents md c :
  let r := add_documents documents md s in
  succeeded r →
  c ∈ calculate_chunk_ids documents md →
  ∃ x d,
    chunk_id c = Some (VStr x)
    ∧ x ∈ vs_get (run_store r)
    ∧ vs_entry (run_store r) x = Some d
    ∧ (vs_entry s x = Some d
       ∨ (vs_entry s x = None
          ∧ d ∈ calculate_chunk_ids documents md
          ∧ chunk_id d = Some (VStr x))).
Proof.
  cbv zeta. intros Hok Hc.
  pose proof (add_documents_all_stored documents md s c Hok Hc) as Hst.
  unfold already_stored in Hst.
  destruct (chunk_id c) as [[| | |x]|] eqn:Hid; try done. cbn [id_in] in Hst.
  apply elem_of_list_to_set in Hst.
  destruct (proj1 (vs_get_entry _ _) Hst) as [d Hd].
  exists x, d. split_and!; [done..|].
  set (new_chunks := new_chunks_for (vs_get s) (calculate_chunk_ids documents md)).
  destruct (decide (new_chunks = [])) as [Hnil|Hne].
  { rewrite add_documents_no_new in Hd by done. by left. }
  destruct (add_documents_new documents md s Hne)
    as (batches & _ & Hcat & _ & Hrun).
  fold new_chunks in Hcat. rewrite Hrun in Hd. simpl in Hd.
  apply write_batches_entry in Hd as [?|(b & Hb & Hdb & Hdx)]; [by left|right].
  assert (d ∈ new_chunks) as [Hnot Hin]%list_elem_of_filter.
  { rewrite <-Hcat. apply elem_of_concat. eauto. }
  split_and!; [|done..].
  destruct (vs_entry s x) as [d'|] eqn:Hsx; [|done]. destruct Hnot.
  unfold already_stored. rewrite Hdx. simpl.
  apply elem_of_list_to_set, vs_get_entry. by rewrite Hsx.
Qed.

Lemma add_documents_stores_all_witness :
  ∃ x d,
    x ∈ vs_get (run_store (add_documents reentry_chunks embed_metadata
                             (∅ : gmap string Document)))
    ∧ chunk_id d = Some (VStr x).
Proof.
  destruct (add_documents_stores_all (∅ : gmap string Document) reentry_chunks
              embed_metadata
              (apply_metadata embed_metadata
                 (set_item "id" (VStr "A:2:0") (page_chunk "A" 2))))
    as (x & d & _ & Hx & Hd & Hor); [by vm_compute|by_evaluation|].
  exists x, d. split; [exact Hx|].
  destruct Hor as [Hs|(_ & _ & Hid)]; [|exact Hid].
  cbn [vs_entry mem_store] in Hs. by rewrite lookup_empty in Hs.
Defined.

(** X11.  De-duplication is against the collection only.  On a collection
    without stored identifiers a call that returns hands every chunk of the
    input to the store, in order, also chunks that share an identifier. *)
Theorem add_documents_empty_collection {S : Type} `{!VectorStore S} (s : S) documents md :
  let r := add_documents documents md s in
  vs_get s = [] →
  succeeded r →
  new_chunks_for (vs_get s) (calculate_chunk_ids documents md)
    = calculate_chunk_ids documents md
  ∧ ∃ calls batches,
      run_calls r = CallGet :: calls
      ∧ Forall2 writes_batch calls batches
      ∧ concat batches = calculate_chunk_ids documents md.
Proof.
  intros r Hempty Hok.
  set (chunks := calculate_chunk_ids documents md).
  assert (new_chunks_for (vs_get s) chunks = chunks) as Hall.
  { rewrite Hempty. unfold new_chunks_for.
    induction chunks as [|c l IH]; [done|].
    rewrite filter_cons_True, IH; [done|].
    unfold already_stored. destruct (chunk_id c) as [[| | |x]|]; try by intros [].
    simpl. set_solver. }
  split; [done|].
  destruct (decide (chunks = [])) as [Hnil|Hne].
  { exists [], []. unfold r.
    rewrite add_documents_no_new by (fold chunks; by rewrite Hall).
    rewrite Hnil. split_and!; [done|constructor|done]. }
  destruct (add_documents_new documents md s) as (batches & _ & Hcat & _ & Hrun).
  { fold chunks. by rewrite Hall. }
  fold chunks in Hcat. rewrite Hall in Hcat.
  unfold r in *. rewrite Hrun in Hok |- *. unfold succeeded in Hok. simpl in *.
  destruct (write_batches_succeeded batches s) as [Hw _].
  { unfold succeeded. by destruct (run_result (write_batches batches s)). }
  by exists (run_calls (write_batches batches s)), batches.
Qed.

Lemma add_documents_empty_collection_witness :
  new_chunks_for [] (calculate_chunk_ids reentry_chunks [])
  = calculate_chunk_ids reentry_chunks [].
Proof.
  destruct (add_documents_empty_collection (∅ : gmap string Document)
              reentry_chunks []) as [Hall _]; [reflexivity|by vm_compute|].
  exact Hall.
Defined.


(** ** The search endpoint *)

Lemma api_search_run {S : Type} `{!VectorStore S} (s : S) query k :
  api_search query k s
  = let editor_call := CallSimilaritySearch query k (Some editor_filter) in
    let owner_call := CallSimilaritySearch query k (Some owner_filter) in
    match vs_similarity_search s query k (Some editor_filter) with
    | None => mkRun s [editor_call] (inl (LibraryError "similarity_search"))
    | Some results_editor =>
        match vs_similarity_search s query k (Some owner_filter) with
        | None =>
            mkRun s [editor_call; owner_call]
              (inl (LibraryError "similarity_search"))
        | Some results_owner =>
            mkRun s [editor_call; owner_call]
              (inr (results_editor, results_owner))
        end
    end.
Proof.
  unfold api_search, search, bind_a, store_similarity_search, ret_a. simpl.
  destruct (vs_similarity_search s query k (Some editor_filter)); simpl; [|done].
  by destruct (vs_similarity_search s query k (Some owner_filter)).
Qed.

(** X12.  [/api/search] only reads.  Once its adapter is constructed it
    asks the store for the editor tier first and, if that call returned,
    for the owner tier, with the same query and [k]; it leaves the
    collection as it is.  It answers 500 with the fixed detail exactly when
    one of the two calls raised, without asking for the owner tier when the
    editor call raised.  Otherwise it
    answers with what the two calls returned, so every entry of
    [results_editor] is stored with [user:editor] true and every entry of
    [results_owner] is stored with [user:owner] true. *)
Theorem search_endpoint_reads {S : Type} `{!VectorStore S} (s : S) query k :
  let r := api_search query k s in
  let editor := vs_similarity_search s query k (Some editor_filter) in
  let owner := vs_similarity_search s query k (Some owner_filter) in
  run_store r = s
  ∧ run_calls r
    = CallSimilaritySearch query k (Some editor_filter)
      :: match editor with
         | Some _ => [CallSimilaritySearch query k (Some owner_filter)]
         | None => []
         end
  ∧ (search_endpoint query k s = HTTPException 500 "Internal server error"
     ↔ editor = None ∨ owner = None)
  ∧ (∀ results_editor results_owner,
       search_endpoint query k s = SearchOK results_editor results_owner ↔
       editor = Some results_editor ∧ owner = Some results_owner)
  ∧ (∀ results_editor results_owner d,
       search_endpoint query k s = SearchOK results_editor results_owner →
       (d ∈ results_editor →
        metadata d !! "user:editor" = Some (VBool true)
        ∧ ∃ x, vs_entry s x = Some d)
       ∧ (d ∈ results_owner →
          metadata d !! "user:owner" = Some (VBool true)
          ∧ ∃ x, vs_entry s x = Some d)).
Proof.
  cbv zeta. unfold search_endpoint. rewrite api_search_run. cbv zeta.
  destruct (vs_similarity_search s query k (Some editor_filter))
    as [re|] eqn:He;
    [destruct (vs_similarity_search s query k (Some owner_filter))
       as [ro|] eqn:Ho|]; simpl.
  - split_and!; [done..| | |].
    + split; [done|]. by intros [?|?].
    + intros re' ro'. split; [by intros [= -> ->]|by intros [[= ->] [= ->]]].
    + intros re' ro' d [= <- <-]. split; intros Hd.
      * destruct (vs_search_sound _ _ _ _ _ d He Hd) as [Hm Hx].
        split; [|done]. by apply Forall_cons in Hm as [Hm _].
      * destruct (vs_search_sound _ _ _ _ _ d Ho Hd) as [Hm Hx].
        split; [|done]. by apply Forall_cons in Hm as [Hm _].
  - split_and!; [done..| | |done].
    + split; [by right|done].
    + intros re' ro'. split; [done|by intros [_ ?]].
  - split_and!; [done..| | |done].
    + split; [by left|done].
    + intros re' ro'. split; [done|by intros [? _]].
Qed.

(** ** Construction *)

(** X13.  Constructing a [ChromaVectorDB] always builds a store object, for
    the given index name under [CHROMA_PATH], and leaves the new instance
    holding it.  Two constructions give two different handles, also for the
    same index name: what [connect] reuses is the handle of one instance,
    never that of another. *)
Theorem new_ChromaVectorDB_builds index_name embedding p index_name' embedding' :
  let '(self, p') := new_ChromaVectorDB index_name embedding p in
  let '(self', p'') := new_ChromaVectorDB index_name' embedding' p' in
  ∃ h h',
    vector_store self = Some h ∧ vector_store self' = Some h' ∧ h ≠ h'
    ∧ p'' !! h = Some (mkChroma CHROMA_PATH embedding index_name)
    ∧ p'' !! h' = Some (mkChroma CHROMA_PATH embedding' index_name')
    ∧ p'' = p ++ [mkChroma CHROMA_PATH embedding index_name;
                  mkChroma CHROMA_PATH embedding' index_name'].
Proof.
  unfold new_ChromaVectorDB, connect, Process, Handle in *. simpl.
  exists (length p), (length (p ++ [mkChroma CHROMA_PATH embedding index_name])).
  rewrite length_app. simpl. split_and!; [done|done|lia|..].
  - rewrite lookup_app_l by (rewrite length_app; simpl; lia).
    by apply list_lookup_middle.
  - apply list_lookup_middle. by rewrite length_app.
  - by rewrite <-app_assoc.
Qed.

(** ** Uploading twice *)

Lemma background_upload_when_run {S : Type} `{!VectorStore S}
    answers lib documents chunk_size chunk_overlap (s : S) :
  background_upload_when answers lib documents chunk_size chunk_overlap s
  = match split_documents lib documents chunk_size chunk_overlap with
    | inl e => mkRun s [] (inl e)
    | inr chunks =>
        if answers then
          let r := add_documents chunks embed_metadata s in
          mkRun (run_store r) (run_calls r)
            (match run_result r with inl e => inl e | inr _ => inr () end)
        else mkRun s [CallGet] (inl (LibraryError "get"))
    end.
Proof.
  destruct answers.
  - apply background_upload_run.
  - unfold background_upload_when, bind_a, lift_a.
    by destruct (split_documents lib documents chunk_size chunk_overlap).
Qed.

(** X14.  A second background upload of the same documents with the same
    split parameters, after one that returned, stores nothing: the only
    call it makes on the store is the [get], and the collection stays as
    the first upload left it.  It returns [None] when the [get] call
    returns, and lets the exception of the [get] call through when that
    raises. *)
Theorem background_upload_twice {S : Type} `{!VectorStore S}
    answers lib documents chunk_size chunk_overlap (s : S) :
  let r1 := background_upload lib documents chunk_size chunk_overlap s in
  succeeded r1 →
  let r2 := background_upload_when answers lib documents chunk_size
              chunk_overlap (run_store r1) in
  run_calls r2 = [CallGet]
  ∧ run_store r2 = run_store r1
  ∧ run_result r2 = if answers then inr () else inl (LibraryError "get").
Proof.
  cbv zeta. rewrite background_upload_when_run, background_upload_run.
  unfold succeeded.
  destruct (split_documents lib documents chunk_size chunk_overlap)
    as [e|chunks]; cbn -[add_documents]; [done|].
  intros Hok. destruct answers; [|done].
  rewrite add_documents_no_new; [done|].
  apply filter_none. intros c Hc Hnot. apply Hnot.
  apply add_documents_all_stored; [|done]. unfold succeeded.
  by destruct (run_result (add_documents chunks embed_metadata s)).
Qed.

Lemma background_upload_twice_witness :
  let s1 := run_store (background_upload whole_document_splitter
                         [short_document] 400 40 (∅ : gmap string Document)) in
  let r2 := background_upload_when true whole_document_splitter
              [short_document] 400 40 s1 in
  run_calls r2 = [CallGet] ∧ run_result r2 = inr ().
Proof.
  intros s1 r2.
  destruct (background_upload_twice true whole_document_splitter
              [short_document] 400 40 (∅ : gmap string Document))
    as (Hcalls & _ & Hres); [by vm_compute|].
  exact (conj Hcalls Hres).
Defined.

(** ** Development mode and start-up *)

Lemma lower_char_inv a b :
  lower_char a = b → a = b ∨ a = ascii_of_N (N_of_ascii b - 32).
Proof.
  unfold lower_char. case_decide as Hn; [|by left]. intros <-. right.
  rewrite N_ascii_embedding by lia.
  replace (N_of_ascii a + 32 - 32)%N with (N_of_ascii a) by lia.
  by rewrite ascii_N_embedding.
Qed.

Lemma py_lower_chars s : chars (py_lower s) = lower_char <$> chars s.
Proof. induction s as [|a s IH]; simpl; [done|]. by rewrite IH. Qed.

Lemma chars_inj : Inj (=) (=) chars.
Proof.
  intros s1. induction s1 as [|a s1 IH]; intros [|b s2] Heq; simpl in Heq;
    try done.
  injection Heq as -> Heq. by rewrite (IH s2).
Qed.

(** Each letter of ["development"] with its capital. *)
Lemma development_letters :
  zip (chars "development") (chars "DEVELOPMENT")
  = (λ b, (b, ascii_of_N (N_of_ascii b - 32))) <$> chars "development".
Proof. reflexivity. Qed.

(** X15.  [isDevelopment] is true exactly when the variable [env] is set
    to the word development in any mix of capital and small letters,
    nothing before or after it: the value has eleven characters and each
    is the letter of ["development"] at its place or its capital.  No
    other variable has a say, whatever its name. *)
Theorem isDevelopment_iff (environ : Environ) :
  (isDevelopment environ = true ↔
   ∃ env, environ !! "env" = Some env
     ∧ Forall2 (λ a lu, a = lu.1 ∨ a = lu.2) (chars env)
         (zip (chars "development") (chars "DEVELOPMENT")))
  ∧ (environ !! "env" = None → isDevelopment environ = false)
  ∧ (∀ key value, key ≠ "env" →
       isDevelopment (<[key := value]> environ) = isDevelopment environ).
Proof.
  split_and!.
  - unfold isDevelopment, os_getenv.
    destruct (environ !! "env") as [env|]; [|split; [done|by intros (? & ? & _)]].
    case_decide as Hlow.
    + split; [intros _|done]. exists env. split; [done|].
      rewrite development_letters. apply Forall2_fmap_r.
      apply (f_equal chars) in Hlow. rewrite py_lower_chars in Hlow.
      rewrite <-Hlow. apply Forall2_fmap_r, Forall_Forall2_diag, Forall_forall.
      intros a _. simpl. by apply lower_char_inv.
    + split; [done|]. intros (env' & [= <-] & Hall). destruct Hlow.
      apply chars_inj. rewrite py_lower_chars.
      assert (Forall (λ lu : ascii * ascii,
                lower_char lu.1 = lu.1 ∧ lower_char lu.2 = lu.1)
                (zip (chars "development") (chars "DEVELOPMENT"))) as Hlu.
      { by repeat constructor. }
      replace (chars "development")
        with ((zip (chars "development") (chars "DEVELOPMENT")).*1) by done.
      revert Hlu Hall. generalize (zip (chars "development") (chars "DEVELOPMENT")).
      intros pairs Hlu Hall. revert Hlu.
      induction Hall as [|a lu l pairs' Ha Hall IH]; intros Hlu; [done|].
      apply Forall_cons in Hlu as [[H1 H2] Hlu]. simpl. f_equal; [|by apply IH].
      by destruct Ha as [->| ->].
  - unfold isDevelopment, os_getenv. by intros ->.
  - intros key value Hkey. unfold isDevelopment, os_getenv.
    by rewrite lookup_insert_ne.
Qed.

(** X16.  The start-up script runs the server on port 5002 when [PORT] is
    set neither in the [.env] file nor in the environment, on the integer
    [PORT] reads as when it is set, whatever that integer is, and raises
    "PORT environment variable must be an integer" when it does not read as
    one; a [PORT] of the [.env] file wins over the environment's.  It never
    raises "PORT environment variable not set", nor a [TypeError]; the
    host is always 0.0.0.0 and reload is on exactly in development mode. *)
Theorem main_outcomes int_of_str (dotenv environ : Environ) :
  let effective := load_dotenv_override dotenv environ in
  let run port := UvicornRun "src.app:app" port (isDevelopment effective) "0.0.0.0" in
  (effective !! "PORT" = None → main int_of_str dotenv environ = run 5002%Z)
  ∧ (∀ v, effective !! "PORT" = Some v →
       main int_of_str dotenv environ
       = match int_of_str v with
         | Some port => run port
         | None =>
             RaisedValueError "PORT environment variable must be an integer"
         end)
  ∧ (effective !! "PORT"
     = match dotenv !! "PORT" with
       | Some v => Some v
       | None => environ !! "PORT"
       end)
  ∧ main int_of_str dotenv environ
    ≠ RaisedValueError "PORT environment variable not set"
  ∧ main int_of_str dotenv environ ≠ RaisedTypeError.
Proof.
  intros effective run. unfold main, os_getenv_default. fold effective.
  split_and!.
  - by intros ->.
  - intros v ->. simpl. by destruct (int_of_str v).
  - unfold effective, load_dotenv_override. rewrite lookup_union.
    by destruct (dotenv !! "PORT"), (environ !! "PORT").
  - destruct (effective !! "PORT") as [v|]; simpl;
      [by destruct (int_of_str v)|done].
  - destruct (effective !! "PORT") as [v|]; simpl;
      [by destruct (int_of_str v)|done].
Qed.

(** ** Uploads only add *)

Lemma add_documents_keeps {S : Type} `{!VectorStore S} (s : S) documents md x :
  x ∈ vs_get s →
  x ∈ vs_get (run_store (add_documents documents md s))
  ∧ vs_entry (run_store (add_documents documents md s)) x = vs_entry s x.
Proof.
  intros Hx.
  set (new_chunks := new_chunks_for (vs_get s) (calculate_chunk_ids documents md)).
  destruct (decide (new_chunks = [])) as [Hnil|Hne].
  { by rewrite add_documents_no_new. }
  destruct (add_documents_new documents md s Hne)
    as (batches & _ & Hcat & _ & Hrun).
  fold new_chunks in Hcat. rewrite Hrun. simpl.
  split; [by apply write_batches_mono|].
  apply write_batches_frame. intros b c Hb Hc Hid.
  assert (c ∈ new_chunks) as [Hnot _]%list_elem_of_filter.
  { rewrite <-Hcat. apply elem_of_concat. eauto. }
  apply Hnot. unfold already_stored. rewrite Hid. simpl.
  by apply elem_of_list_to_set.
Qed.

Lemma background_upload_keeps {S : Type} `{!VectorStore S}
    lib documents chunk_size chunk_overlap (s : S) x :
  let r := background_upload lib documents chunk_size chunk_overlap s in
  x ∈ vs_get s →
  x ∈ vs_get (run_store r) ∧ vs_entry (run_store r) x = vs_entry s x.
Proof.
  cbv zeta. rewrite background_upload_run.
  destruct (split_documents lib documents chunk_size chunk_overlap)
    as [e|chunks]; cbn -[add_documents]; [done|].
  apply add_documents_keeps.
Qed.

(** X17.  Uploads only add.  After any series of background uploads every
    identifier that was stored at the start is still stored, with the
    entry it had: a chunk whose identifier is already taken is never
    written, so a document whose text changed but whose chunks get the
    same identifiers keeps its old entries. *)
Theorem embed_runs_append_only {S : Type} `{!VectorStore S}
    lib requests (s : S) x :
  x ∈ vs_get s →
  x ∈ vs_get (embed_runs lib requests s)
  ∧ vs_entry (embed_runs lib requests s) x = vs_entry s x.
Proof.
  revert s.
  induction requests as [|[[documents chunk_size] chunk_overlap] rest IH];
    intros s Hx; [done|].
  destruct (background_upload_keeps lib documents chunk_size chunk_overlap s x Hx)
    as [Hin Heq].
  simpl. destruct (IH _ Hin) as [Hin' Heq']. split; [done|]. by rewrite Heq'.
Qed.

Lemma embed_runs_append_only_witness :
  let old := mkDocument "first edition" ∅ in
  let s : gmap string Document := {["data/monopoly.pdf:0:0" := old]} in
  vs_entry (embed_runs whole_document_splitter [([short_document], 400, 40)%Z] s)
    "data/monopoly.pdf:0:0"
  = Some old.
Proof.
  intros old s.
  destruct (embed_runs_append_only whole_document_splitter
              [([short_document], 400, 40)%Z] s "data/monopoly.pdf:0:0")
    as [_ Heq]; [by_evaluation|].
  rewrite Heq. by vm_compute.
Defined.
